(** * Change detection and orchestration of the career scraper

    A shallow embedding of the core of the job scheduler:

    - [internal/core/domain/job.go]: [Job], [JobCollection], [DiffResult];
    - [internal/adapters/repository/memory_repository.go]: the in-memory
      [MemoryRepository];
    - [internal/core/ports]: the [Scraper], [Notifier] and [JobRepository]
      interfaces;
    - [internal/core/services/careerscraper_service.go]:
      [compareScrapeResults], [processSingleURL] and [ScrapeAndNotify];
    - [internal/core/domain/notification.go]: the notifications and
      [createJobsMessage];
    - [internal/adapters/notifier/discord_notifier.go]: [NotifyNewJobs]
      and [sendWebhook];
    - [internal/adapters/scraper/gorod_scraper.go]: [extractCompanyName];
    - [internal/config/config.go]: the list of sources of [LoadConfig].

    Go maps are finite maps ([gmap]) keyed by strings, slices are lists,
    an [error] value is [option error] with [None] for [nil].  Calls made
    through the three interfaces and the lines written with [log.Printf]
    are recorded, in program order, in the trace of the [World] the
    service runs in. *)

From stdpp Require Import gmap strings list fin_maps pretty.
From Stdlib Require Import ZArith Ascii.

Open Scope string_scope.
Open Scope list_scope.

(** ** Domain model ([internal/core/domain/job.go]) *)

(** [time.Time]: an instant, counted from the zero instant. None of the
    functions below inspects it. *)
Definition Time := Z.

Record Job := mkJob {
  ID : string;
  Title : string;
  Description : string;
  Location : string;
  Department : string;
  URL : string;
  PostedDate : Time;
  ScrapedAt : Time
}.

Record JobCollection := mkJobCollection {
  CompanyName : string;
  SourceURL : string;
  CollScrapedAt : Time;
  Jobs : list Job;
  RawContent : string
}.

Record DiffResult := mkDiffResult {
  DiffCompanyName : string;
  DiffSourceURL : string;
  NewJobs : list Job;
  RemovedJobs : list Job;
  UpdatedJobs : list Job
}.

(** The zero value [domain.JobCollection{}]. *)
Definition emptyJobCollection : JobCollection :=
  mkJobCollection "" "" 0%Z [] "".

#[global] Instance Job_eq_dec : EqDecision Job.
Proof. solve_decision. Defined.

#[global] Instance JobCollection_eq_dec : EqDecision JobCollection.
Proof. solve_decision. Defined.

#[global] Instance DiffResult_eq_dec : EqDecision DiffResult.
Proof. solve_decision. Defined.

(** ** The diff ([compareScrapeResults]) *)

Module Diff.

(** [for _, job := range jobs { m[job.ID] = job }] *)
Definition indexJobs (jobs : list Job) : gmap string Job :=
  foldl (fun m job => <[ID job := job]> m) ∅ jobs.

(** The condition of the [else if]: one of the four compared fields of
    [job] is not the one of [prevJob]. *)
Definition contentDiffers (job prevJob : Job) : bool :=
  bool_decide (Title job ≠ Title prevJob)
  || bool_decide (Description job ≠ Description prevJob)
  || bool_decide (Location job ≠ Location prevJob)
  || bool_decide (Department job ≠ Department prevJob).

Definition appendNew (result : DiffResult) (job : Job) : DiffResult :=
  mkDiffResult (DiffCompanyName result) (DiffSourceURL result)
    (NewJobs result ++ [job]) (RemovedJobs result) (UpdatedJobs result).

Definition appendUpdated (result : DiffResult) (job : Job) : DiffResult :=
  mkDiffResult (DiffCompanyName result) (DiffSourceURL result)
    (NewJobs result) (RemovedJobs result) (UpdatedJobs result ++ [job]).

Definition appendRemoved (result : DiffResult) (job : Job) : DiffResult :=
  mkDiffResult (DiffCompanyName result) (DiffSourceURL result)
    (NewJobs result) (RemovedJobs result ++ [job]) (UpdatedJobs result).

(** One iteration of the loop over [current.Jobs]; the loop state is
    [currJobMap] and [result]. *)
Definition classifyStep (prevJobMap : gmap string Job)
    (st : gmap string Job * DiffResult) (job : Job)
    : gmap string Job * DiffResult :=
  let currJobMap := <[ID job := job]> (fst st) in
  match prevJobMap !! ID job with
  | None => (currJobMap, appendNew (snd st) job)
  | Some prevJob =>
      if contentDiffers job prevJob
      then (currJobMap, appendUpdated (snd st) job)
      else (currJobMap, snd st)
  end.

(** One iteration of the loop over [previous.Jobs] that finds the removed
    jobs. *)
Definition removedStep (currJobMap : gmap string Job)
    (result : DiffResult) (prevJob : Job) : DiffResult :=
  match currJobMap !! ID prevJob with
  | None => appendRemoved result prevJob
  | Some _ => result
  end.

Definition compareScrapeResults (previous current : JobCollection)
    : DiffResult :=
  let result :=
    mkDiffResult (CompanyName current) (SourceURL current) [] [] [] in
  let prevJobMap := indexJobs (Jobs previous) in
  let st := foldl (classifyStep prevJobMap) (∅, result) (Jobs current) in
  foldl (removedStep (fst st)) (snd st) (Jobs previous).

(** The job ids of a list of jobs, in order. *)
Definition ids (jobs : list Job) : list string := map ID jobs.

(** The version of job [id] that a snapshot holds: the last entry of the
    ordered sequence with that id. *)
Fixpoint versionOf (id : string) (jobs : list Job) : option Job :=
  match jobs with
  | [] => None
  | job :: rest =>
      match versionOf id rest with
      | Some later => Some later
      | None => if decide (ID job = id) then Some job else None
      end
  end.

(** A job of the current snapshot is appended to [NewJobs] when its id
    has no entry in [prevJobMap]. *)
Definition newIn (prevJobMap : gmap string Job) (job : Job) : Prop :=
  prevJobMap !! ID job = None.

(** It is appended to [UpdatedJobs] when the entry exists and the
    compared content differs. *)
Definition updatedIn (prevJobMap : gmap string Job) (job : Job) : Prop :=
  match prevJobMap !! ID job with
  | Some prevJob => contentDiffers job prevJob = true
  | None => False
  end.

(** A job of the previous snapshot is appended to [RemovedJobs] when its
    id has no entry in [currJobMap]. *)
Definition removedIn (currJobMap : gmap string Job) (prevJob : Job) : Prop :=
  currJobMap !! ID prevJob = None.

#[global] Instance newIn_dec pm job : Decision (newIn pm job).
Proof. unfold newIn. apply _. Defined.

#[global] Instance updatedIn_dec pm job : Decision (updatedIn pm job).
Proof. unfold updatedIn. destruct (pm !! ID job); apply _. Defined.

#[global] Instance removedIn_dec cm job : Decision (removedIn cm job).
Proof. unfold removedIn. apply _. Defined.

(** How often the id occurs in a list of jobs. *)
Definition occurrences (id : string) (jobs : list Job) : nat :=
  length (filter (fun job => ID job = id) jobs).

End Diff.

(** ** Errors, ports and the in-memory repository *)

(** A non-nil Go [error], by its message. *)
Definition error := string.

(** [ports.Scraper], over the state [S] of the implementation. *)
Class Scraper (S : Type) :=
  Scrape : string → S → (JobCollection * option error) * S.

(** [ports.Notifier]. *)
Class Notifier (N : Type) :=
  NotifyNewJobs : DiffResult → N → option error * N.

(** [ports.JobRepository]. *)
Class JobRepository (R : Type) := {
  SaveJobCollection : JobCollection → R → option error * R;
  GetLatestJobCollection : string → R → (JobCollection * option error) * R
}.

Module MemoryRepository.

(** The state of a [MemoryRepository] is its [collections] map; the
    mutex only serialises the two operations. *)
Definition NewMemoryRepository : gmap string JobCollection := ∅.

Definition SaveJobCollection (collection : JobCollection)
    (collections : gmap string JobCollection)
    : option error * gmap string JobCollection :=
  (None, <[SourceURL collection := collection]> collections).

Definition GetLatestJobCollection (url : string)
    (collections : gmap string JobCollection)
    : (JobCollection * option error) * gmap string JobCollection :=
  match collections !! url with
  | None => ((emptyJobCollection, None), collections)
  | Some collection => ((collection, None), collections)
  end.

(** A [MemoryRepository] is a [ports.JobRepository]. *)
#[global] Instance memoryRepository
    : JobRepository (gmap string JobCollection) :=
  Build_JobRepository _ SaveJobCollection GetLatestJobCollection.

End MemoryRepository.

(** ** The service ([careerscraper_service.go]) *)

(** The lines of [log.Printf], with their arguments. *)
Inductive LogLine :=
| LogStartingJob (n : nat)
| LogProcessingURL (url : string)
| LogErrorProcessing (url : string) (err : error)
| LogCompletedJob
| LogStartingScrape (url : string)
| LogFoundJobs (n : nat) (url : string)
| LogNoPreviousData (url : string) (err : error)
| LogRetrievedPrevious (n : nat)
| LogDiffResults (url : string) (new updated removed : nat)
| LogSendingNotification (url : string)
| LogNotificationFailed (err : error)
| LogNotificationSent
| LogNoChanges (url : string)
| LogSaving (url : string)
| LogProcessed (url : string).

(** What the service does to the outside, in program order. *)
Inductive Event :=
| CallScrape (url : string)
| CallGetLatestJobCollection (url : string)
| CallNotifyNewJobs (diff : DiffResult)
| CallSaveJobCollection (collection : JobCollection)
| Log (line : LogLine).

#[global] Instance LogLine_eq_dec : EqDecision LogLine.
Proof. solve_decision. Defined.

#[global] Instance Event_eq_dec : EqDecision Event.
Proof. solve_decision. Defined.

Section Service.
Context {S N R : Type}.
Context `{!Scraper S, !Notifier N, !JobRepository R}.

(** The three collaborators of a [CareerScraperService] and the trace of
    what it did so far. *)
Record World := mkWorld {
  scraper : S;
  notifier : N;
  repository : R;
  trace : list Event
}.

(** A method of the service: a result and the world it leaves. *)
Definition M (A : Type) : Type := World → A * World.

Definition ret {A} (a : A) : M A := fun w => (a, w).

Definition bind {A B} (m : M A) (k : A → M B) : M B :=
  fun w => let '(a, w') := m w in k a w'.

Definition emit (e : Event) : M unit :=
  fun w => (tt, mkWorld (scraper w) (notifier w) (repository w)
                  (trace w ++ [e])).

Definition logPrintf (line : LogLine) : M unit := emit (Log line).

Definition callScrape (url : string) : M (JobCollection * option error) :=
  bind (emit (CallScrape url)) (fun _ w =>
    let '(result, s') := Scrape url (scraper w) in
    (result, mkWorld s' (notifier w) (repository w) (trace w))).

Definition callNotifyNewJobs (diff : DiffResult) : M (option error) :=
  bind (emit (CallNotifyNewJobs diff)) (fun _ w =>
    let '(err, n') := NotifyNewJobs diff (notifier w) in
    (err, mkWorld (scraper w) n' (repository w) (trace w))).

Definition callGetLatestJobCollection (url : string)
    : M (JobCollection * option error) :=
  bind (emit (CallGetLatestJobCollection url)) (fun _ w =>
    let '(result, r') := GetLatestJobCollection url (repository w) in
    (result, mkWorld (scraper w) (notifier w) r' (trace w))).

Definition callSaveJobCollection (collection : JobCollection)
    : M (option error) :=
  bind (emit (CallSaveJobCollection collection)) (fun _ w =>
    let '(err, r') := SaveJobCollection collection (repository w) in
    (err, mkWorld (scraper w) (notifier w) r' (trace w))).

End Service.

Arguments World : clear implicits.

Declare Scope service_scope.
Delimit Scope service_scope with service.
Notation "x <- m ;; k" := (bind m (fun x => k))
  (at level 100, m at next level, right associativity) : service_scope.
Notation "m ;; k" := (bind m (fun _ => k))
  (at level 100, right associativity) : service_scope.

Section ServiceMethods.
Context {S N R : Type}.
Context `{!Scraper S, !Notifier N, !JobRepository R}.
Local Open Scope service_scope.

(** The condition of the notification [if]:
    [len(diff.NewJobs) > 0 || len(diff.RemovedJobs) > 0 ||
     len(diff.UpdatedJobs) > 0]. *)
Definition hasChanges (diff : DiffResult) : bool :=
  bool_decide (0 < length (NewJobs diff))
  || bool_decide (0 < length (RemovedJobs diff))
  || bool_decide (0 < length (UpdatedJobs diff)).

Definition processSingleURL (url : string) : @M S N R (option error) :=
  logPrintf (LogStartingScrape url) ;;
  scraped <- callScrape url ;;
  let '(currentJobs, err) := scraped in
  match err with
  | Some err => ret (Some ("failed to scrape URL " +:+ url +:+ ": " +:+ err))
  | None =>
    logPrintf (LogFoundJobs (length (Jobs currentJobs)) url) ;;
    looked <- callGetLatestJobCollection url ;;
    let '(previousJobs, err) := looked in
    match err with
    | Some err =>
      logPrintf (LogNoPreviousData url err) ;;
      callSaveJobCollection currentJobs
    | None =>
      logPrintf (LogRetrievedPrevious (length (Jobs previousJobs))) ;;
      let diff := Diff.compareScrapeResults previousJobs currentJobs in
      logPrintf (LogDiffResults url (length (NewJobs diff))
                   (length (UpdatedJobs diff)) (length (RemovedJobs diff))) ;;
      (if hasChanges diff then
         logPrintf (LogSendingNotification url) ;;
         sent <- callNotifyNewJobs diff ;;
         match sent with
         | Some err => logPrintf (LogNotificationFailed err)
         | None => logPrintf LogNotificationSent
         end
       else logPrintf (LogNoChanges url)) ;;
      logPrintf (LogSaving url) ;;
      saved <- callSaveJobCollection currentJobs ;;
      match saved with
      | Some err => ret (Some ("failed to save job collection: " +:+ err))
      | None => logPrintf (LogProcessed url) ;; ret None
      end
    end
  end.

(** The body of [for _, url := range s.urls]. *)
Fixpoint forEachURL (urls : list string) : @M S N R unit :=
  match urls with
  | [] => ret tt
  | url :: rest =>
    logPrintf (LogProcessingURL url) ;;
    failed <- processSingleURL url ;;
    match failed with
    | Some err => logPrintf (LogErrorProcessing url err) ;; forEachURL rest
    | None => forEachURL rest
    end
  end.

(** [urls] is the [urls] field of the service. *)
Definition ScrapeAndNotify (urls : list string)
    : @M S N R (option error) :=
  logPrintf (LogStartingJob (length urls)) ;;
  forEachURL urls ;;
  logPrintf LogCompletedJob ;;
  ret None.

End ServiceMethods.

(** ** Reading a trace *)

(** The URLs passed to [Scrape], in call order. *)
Definition scrapes (t : list Event) : list string :=
  omap (fun e => match e with CallScrape url => Some url | _ => None end) t.

(** The diffs passed to [NotifyNewJobs], in call order. *)
Definition notifications (t : list Event) : list DiffResult :=
  omap (fun e =>
    match e with CallNotifyNewJobs diff => Some diff | _ => None end) t.

(** The collections passed to [SaveJobCollection], in call order. *)
Definition saves (t : list Event) : list JobCollection :=
  omap (fun e =>
    match e with CallSaveJobCollection c => Some c | _ => None end) t.

(** The URLs passed to [GetLatestJobCollection], in call order. *)
Definition lookups (t : list Event) : list string :=
  omap (fun e =>
    match e with CallGetLatestJobCollection url => Some url | _ => None end)
    t.

(** The lines logged on the branch of [processSingleURL] taken when
    [GetLatestJobCollection] fails. *)
Definition lookupFailures (t : list Event) : list (string * error) :=
  omap (fun e =>
    match e with
    | Log (LogNoPreviousData url err) => Some (url, err)
    | _ => None
    end) t.

Section Pipeline.
Context {S N R : Type}.
Context `{!Scraper S, !Notifier N, !JobRepository R}.

(** What [processSingleURL] does for its URL between a world [w] and
    the world [w'] it leaves: after a
    failed Scrape nothing else is called; after a successful one the
    lookup for the URL is made, [NotifyNewJobs] is called with the diff
    exactly when the lookup succeeded and the diff has a change, and the
    scraped collection is saved in the repository the lookup left. *)
Definition pipelineRan (url : string) (w w' : World S N R) : Prop :=
  match Scrape url (scraper w) with
  | ((current, None), s') =>
      let looked := GetLatestJobCollection url (repository w) in
      let diff := Diff.compareScrapeResults (fst (fst looked)) current in
      let notified :=
        match snd (fst looked) with
        | Some _ => false
        | None => hasChanges diff
        end in
      lookups (trace w') = lookups (trace w) ++ [url]
      ∧ notifications (trace w')
        = notifications (trace w) ++ (if notified then [diff] else [])
      ∧ saves (trace w') = saves (trace w) ++ [current]
      ∧ scraper w' = s'
      ∧ notifier w'
        = (if notified then snd (NotifyNewJobs diff (notifier w))
           else notifier w)
      ∧ repository w' = snd (SaveJobCollection current (snd looked))
  | ((_, Some _), s') =>
      lookups (trace w') = lookups (trace w)
      ∧ notifications (trace w') = notifications (trace w)
      ∧ saves (trace w') = saves (trace w)
      ∧ scraper w' = s'
      ∧ notifier w' = notifier w
      ∧ repository w' = repository w
  end.

End Pipeline.

(** ** Stand-ins for the two external ports

    The scraper and the notifier of the program drive a browser and a
    webhook.  The examples below run the service against these two:
    a scraper that serves fixed pages and a notifier that records what it
    delivered, or refuses everything. *)

Module Doubles.

Record PageScraper := mkPageScraper {
  pages : gmap string JobCollection
}.

#[global] Instance pageScraper : Scraper PageScraper := fun url s =>
  match pages s !! url with
  | Some collection => ((collection, None), s)
  | None => ((emptyJobCollection, Some "navigation failed"), s)
  end.

Record RecordingNotifier := mkRecordingNotifier {
  refuses : bool;
  delivered : list DiffResult
}.

#[global] Instance recordingNotifier : Notifier RecordingNotifier :=
  fun diff n =>
  if refuses n then (Some "webhook returned 500", n)
  else (None, mkRecordingNotifier (refuses n) (delivered n ++ [diff])).

Definition job (id title : string) : Job :=
  mkJob id title "" "" "" "" 0%Z 0%Z.

Definition acme : string := "https://acme.example/careers".
Definition globex : string := "https://globex.example/jobs".

Definition snapshot (url : string) (jobs : list Job) : JobCollection :=
  mkJobCollection "Acme" url 0%Z jobs "".

Definition world (served : list JobCollection) (refusing : bool)
    (stored : list JobCollection)
    : World PageScraper RecordingNotifier (gmap string JobCollection) :=
  mkWorld
    (mkPageScraper (list_to_map (map (fun c => (SourceURL c, c)) served)))
    (mkRecordingNotifier refusing [])
    (list_to_map (map (fun c => (SourceURL c, c)) stored))
    [].

Definition engineer : Job := job "1" "Engineer".
Definition seniorEngineer : Job := job "1" "Senior Engineer".
Definition designer : Job := job "2" "Designer".

(** A snapshot that lists one id twice. *)
Definition twiceListed : JobCollection := snapshot acme [designer; designer].

(** A snapshot that lists id 1 under two titles. *)
Definition retitled : JobCollection :=
  snapshot acme [engineer; seniorEngineer].

End Doubles.

(** The identity and the compared content of a job: what
    [compareScrapeResults] reads of it. *)
Definition compared (job : Job)
    : string * string * string * string * string :=
  (ID job, Title job, Description job, Location job, Department job).

(** ** Go strings

    A Go string is a sequence of bytes, as [string] is here.  These are
    the functions of the [strings] package that the program calls, with
    the separators it passes (one byte each: a slash, a dot, a comma) and
    [strings.Join]. *)

Module GoStrings.

(** [s[n:]], for [n <= len(s)]. *)
Fixpoint dropBytes (n : nat) (s : string) : string :=
  match n, s with
  | O, _ => s
  | Datatypes.S n', String _ rest => dropBytes n' rest
  | Datatypes.S _, EmptyString => EmptyString
  end.

(** [s[:n]], for [n <= len(s)]. *)
Fixpoint takeBytes (n : nat) (s : string) : string :=
  match n, s with
  | O, _ => EmptyString
  | Datatypes.S n', String a rest => String a (takeBytes n' rest)
  | Datatypes.S _, EmptyString => EmptyString
  end.

(** [strings.HasPrefix(s, prefix)] *)
Definition HasPrefix (s prefix : string) : bool := String.prefix prefix s.

(** [strings.TrimPrefix(s, prefix)] *)
Definition TrimPrefix (s prefix : string) : string :=
  if HasPrefix s prefix then dropBytes (String.length prefix) s else s.

(** [strings.Split(s, sep)] for a separator of one byte: the pieces
    between the separators, at least one piece. *)
Fixpoint Split (s : string) (sep : Ascii.ascii) : list string :=
  match s with
  | EmptyString => [EmptyString]
  | String a rest =>
      if decide (a = sep) then EmptyString :: Split rest sep
      else match Split rest sep with
           | piece :: pieces => String a piece :: pieces
           | [] => [String a EmptyString]
           end
  end.

(** [strings.Join(elems, sep)] *)
Fixpoint Join (elems : list string) (sep : string) : string :=
  match elems with
  | [] => EmptyString
  | [elem] => elem
  | elem :: rest => elem +:+ sep +:+ Join rest sep
  end.

(** The bytes of a string, and whether a byte occurs in it. *)
Definition bytes (s : string) : list Ascii.ascii :=
  String.list_ascii_of_string s.

Definition contains (s : string) (c : Ascii.ascii) : Prop := c ∈ bytes s.

(** [string(n)] for an integer [n]: the UTF-8 encoding of the code point
    [n], and of U+FFFD when [n] is not a code point. *)
Definition byte (n : Z) : Ascii.ascii := Ascii.ascii_of_N (Z.to_N n).

Definition runeString (n : Z) : string :=
  if bool_decide (n < 0 ∨ 1114111 < n ∨ (55296 ≤ n ∧ n ≤ 57343))%Z then
    String (byte 239) (String (byte 191) (String (byte 189) EmptyString))
  else if bool_decide (n < 128)%Z then String (byte n) EmptyString
  else if bool_decide (n < 2048)%Z then
    String (byte (Z.lor 192 (Z.shiftr n 6)))
      (String (byte (Z.lor 128 (Z.land n 63))) EmptyString)
  else if bool_decide (n < 65536)%Z then
    String (byte (Z.lor 224 (Z.shiftr n 12)))
      (String (byte (Z.lor 128 (Z.land (Z.shiftr n 6) 63)))
         (String (byte (Z.lor 128 (Z.land n 63))) EmptyString))
  else
    String (byte (Z.lor 240 (Z.shiftr n 18)))
      (String (byte (Z.lor 128 (Z.land (Z.shiftr n 12) 63)))
         (String (byte (Z.lor 128 (Z.land (Z.shiftr n 6) 63)))
            (String (byte (Z.lor 128 (Z.land n 63))) EmptyString))).

End GoStrings.

(** ** Notifications ([internal/core/domain/notification.go]) *)

Module Notifications.
Import GoStrings.

Inductive NotificationType :=
| NotificationTypeNewJobs
| NotificationTypeUpdatedJobs
| NotificationTypeRemovedJobs
| NotificationTypeError.

Record Notification := mkNotification {
  NotificationID : string;
  Type_ : NotificationType;
  NotificationCompanyName : string;
  NotificationSourceURL : string;
  NotificationTitle : string;
  Message : string;
  CreatedAt : Time;
  Payload : option (list Job)
}.

Definition createJobsMessage (jobs : list Job) (changeType : string)
    : string :=
  match jobs with
  | [] => "No " +:+ changeType +:+ " jobs found."
  | [job] => "1 " +:+ changeType +:+ " job: " +:+ Title job
  | _ =>
      runeString (Z.of_nat (length jobs))
      +:+ " " +:+ changeType +:+ " jobs found."
  end.

(** [now] is what [time.Now()] returns. *)
Definition CreateNewJobsNotification (now : Time) (diff : DiffResult)
    : Notification :=
  mkNotification "" NotificationTypeNewJobs (DiffCompanyName diff)
    (DiffSourceURL diff) "New Job Listings"
    (createJobsMessage (NewJobs diff) "new") now (Some (NewJobs diff)).

Definition CreateUpdatedJobsNotification (now : Time) (diff : DiffResult)
    : Notification :=
  mkNotification "" NotificationTypeUpdatedJobs (DiffCompanyName diff)
    (DiffSourceURL diff) "Updated Job Listings"
    (createJobsMessage (UpdatedJobs diff) "updated") now
    (Some (UpdatedJobs diff)).

Definition CreateRemovedJobsNotification (now : Time) (diff : DiffResult)
    : Notification :=
  mkNotification "" NotificationTypeRemovedJobs (DiffCompanyName diff)
    (DiffSourceURL diff) "Removed Job Listings"
    (createJobsMessage (RemovedJobs diff) "removed") now
    (Some (RemovedJobs diff)).

Definition CreateErrorNotification (now : Time)
    (companyName sourceURL errMsg : string) : Notification :=
  mkNotification "" NotificationTypeError companyName sourceURL
    "Scraping Error" errMsg now None.

End Notifications.

(** ** The company name of a source ([gorod_scraper.go]) and the list of
    sources ([config.go]) *)

Module Sources.
Import GoStrings.

(** [l[i]], under the length check the source makes before it. *)
Definition at_ (l : list string) (i : nat) : string :=
  default EmptyString (l !! i).

Section ExtractCompanyName.

(** [strings.Title] of the Go library. *)
Variable Title : string → string.

Definition extractCompanyName (url : string) : string :=
  let url := TrimPrefix url "https://" in
  let url := TrimPrefix url "http://" in
  let urlParts := Split url "/"%char in
  if bool_decide (0 < length urlParts) then
    let domainParts := Split (at_ urlParts 0) "."%char in
    if bool_decide (1 < length domainParts) then
      Title (at_ domainParts (length domainParts - 2))
    else Title (at_ domainParts 0)
  else "Unknown Company".

End ExtractCompanyName.

(** The [URLs] field that [LoadConfig] computes from the value
    [urlsStr] of the [URLs] setting; [[]] is the nil slice. *)
Definition configURLs (urlsStr : string) : list string :=
  if bool_decide (urlsStr ≠ "") then Split urlsStr ","%char else [].

End Sources.

(** ** The Discord notifier ([discord_notifier.go]) *)

Module Discord.
Import GoStrings.

Record DiscordEmbedField := mkField {
  Name : string;
  Value : string;
  Inline : bool
}.

Record DiscordEmbedAuthor := mkAuthor {
  AuthorName : string;
  AuthorURL : string;
  AuthorIconURL : string
}.

Record DiscordEmbedFooter := mkFooter {
  Text : string;
  FooterIconURL : string
}.

Record DiscordEmbed := mkEmbed {
  EmbedTitle : string;
  EmbedDescription : string;
  EmbedURL : string;
  Color : Z;
  Fields : list DiscordEmbedField;
  Author : option DiscordEmbedAuthor;
  Footer : option DiscordEmbedFooter;
  Timestamp : string
}.

Record DiscordWebhookPayload := mkPayload {
  Username : string;
  AvatarURL : string;
  Content : string;
  Embeds : list DiscordEmbed
}.

(** An [http.Request], as far as [sendWebhook] sets it. *)
Record Request := mkRequest {
  Method : string;
  RequestURL : string;
  Body : string;
  Header : gmap string (list string)
}.

(** What the notifier relies on: the clock, [json.Marshal],
    [http.NewRequestWithContext] (which refuses some URLs) and the
    [http.Client], which answers a request with a status code or an
    error.  [H] is the state of the network. *)
Class Outside (H : Type) := {
  timeNowRFC1123 : H → string;
  jsonMarshal : DiscordWebhookPayload → string * option error;
  newRequestError : string → option error;
  clientDo : Request → H → (Z * option error) * H
}.

Section Notifier.
Context {H : Type} `{!Outside H}.

(** A [DiscordNotifier]: its URL, its client, and the requests handed to
    the client so far. *)
Record DiscordNotifier := mkDiscordNotifier {
  webhookURL : string;
  client : H;
  posted : list Request
}.

(** The body of the loop over [diff.NewJobs]: the fields of one job. *)
Definition newJobFields (job : Job) : list DiscordEmbedField :=
  let details :=
    (if bool_decide (Department job ≠ "")
     then ["Department: " +:+ Department job] else [])
    ++ (if bool_decide (Location job ≠ "")
        then ["Location: " +:+ Location job] else []) in
  let detailsStr :=
    if bool_decide (0 < length details) then Join details " | "
    else "No additional details" in
  let field :=
    mkField (Title job)
      ("[View Job](" +:+ URL job +:+ ")" +:+ String "010" "" +:+ detailsStr)
      false in
  if bool_decide (Description job ≠ "") then
    let desc :=
      if bool_decide (200 < String.length (Description job))
      then takeBytes 197 (Description job) +:+ "..."
      else Description job in
    [field; mkField "Description" desc false]
  else [field].

Definition updatedJobField (job : Job) : DiscordEmbedField :=
  mkField (Title job) ("[View Job](" +:+ URL job +:+ ")") false.

Definition removedJobField (job : Job) : DiscordEmbedField :=
  mkField (Title job)
    (Department job
     +:+ (if bool_decide (Location job ≠ "")
          then " | " +:+ Location job else ""))
    false.

(** The payload that [NotifyNewJobs] builds for a diff that is not
    empty; [now] is [time.Now().Format(time.RFC1123)]. *)
Definition buildPayload (now : string) (diff : DiffResult)
    : DiscordWebhookPayload :=
  let sourceEmbed :=
    mkEmbed "Career Page" "Click the title to visit the career page"
      (DiffSourceURL diff) 3447003 [] None
      (Some (mkFooter ("Last updated: " +:+ now) "")) "" in
  let embeds := [sourceEmbed] in
  let embeds :=
    if bool_decide (0 < length (NewJobs diff)) then
      embeds
      ++ [mkEmbed ("New Jobs (" +:+ pretty (length (NewJobs diff)) +:+ ")")
            "The following jobs have been newly listed:" "" 5763719
            (concat (map newJobFields (NewJobs diff))) None None ""]
    else embeds in
  let embeds :=
    if bool_decide (0 < length (UpdatedJobs diff)) then
      embeds
      ++ [mkEmbed
            ("Updated Jobs (" +:+ pretty (length (UpdatedJobs diff)) +:+ ")")
            "The following jobs have been updated:" "" 16776960
            (map updatedJobField (UpdatedJobs diff)) None None ""]
    else embeds in
  let embeds :=
    if bool_decide (0 < length (RemovedJobs diff)) then
      embeds
      ++ [mkEmbed
            ("Removed Jobs (" +:+ pretty (length (RemovedJobs diff)) +:+ ")")
            "The following jobs are no longer listed:" "" 15158332
            (map removedJobField (RemovedJobs diff)) None None ""]
    else embeds in
  mkPayload "Career Scraper"
    "https://cdn-icons-png.flaticon.com/512/4365/4365271.png"
    ("Job updates for **" +:+ DiffCompanyName diff +:+ "**") embeds.

Definition sendWebhook (payload : DiscordWebhookPayload)
    (n : DiscordNotifier) : option error * DiscordNotifier :=
  let '(jsonPayload, err) := jsonMarshal payload in
  match err with
  | Some err =>
      (Some ("failed to marshal Discord webhook payload: " +:+ err), n)
  | None =>
    match newRequestError (webhookURL n) with
    | Some err =>
        (Some ("failed to create Discord webhook request: " +:+ err), n)
    | None =>
      let req :=
        mkRequest "POST" (webhookURL n) jsonPayload
          (<["Content-Type" := ["application/json"]]> ∅) in
      let '((statusCode, err), h) := clientDo req (client n) in
      let n := mkDiscordNotifier (webhookURL n) h (posted n ++ [req]) in
      match err with
      | Some err => (Some ("failed to send Discord webhook: " +:+ err), n)
      | None =>
        if bool_decide (statusCode < 200 ∨ 300 ≤ statusCode)%Z then
          (Some ("Discord webhook returned non-success status: "
                 +:+ pretty statusCode), n)
        else (None, n)
      end
    end
  end.

Definition NotifyNewJobs (diff : DiffResult) (n : DiscordNotifier)
    : option error * DiscordNotifier :=
  if bool_decide (length (NewJobs diff) = 0)
     && bool_decide (length (UpdatedJobs diff) = 0)
     && bool_decide (length (RemovedJobs diff) = 0)
  then (None, n)
  else sendWebhook (buildPayload (timeNowRFC1123 (client n)) diff) n.

End Notifier.

Arguments DiscordNotifier : clear implicits.

(** A [DiscordNotifier] is a [ports.Notifier]. *)
#[global] Instance discordNotifier {H} `{!Outside H}
    : Notifier (DiscordNotifier H) := NotifyNewJobs.

End Discord.

(** ** More stand-ins: a repository that cannot be read and a network *)

Module MoreDoubles.

(** A repository whose reads fail; it keeps what it is asked to save. *)
Record OfflineRepository := mkOfflineRepository {
  kept : list JobCollection
}.

#[global] Instance offlineRepository : JobRepository OfflineRepository :=
  Build_JobRepository _
    (fun collection r => (None, mkOfflineRepository (kept r ++ [collection])))
    (fun url r => ((emptyJobCollection, Some "connection refused"), r)).

Definition offlineWorld (served : list JobCollection)
    : World Doubles.PageScraper Doubles.RecordingNotifier OfflineRepository :=
  mkWorld
    (Doubles.mkPageScraper
       (list_to_map (map (fun c => (SourceURL c, c)) served)))
    (Doubles.mkRecordingNotifier false [])
    (mkOfflineRepository [])
    [].

(** Whether a string holds an ASCII control character (a byte below
    32, or 127): no request can be made for such a URL. *)
Definition hasControlByte (s : string) : bool :=
  existsb (fun b =>
             let n := Ascii.nat_of_ascii b in
             bool_decide (n < 32)%nat || bool_decide (n = 127)%nat)
    (GoStrings.bytes s).

(** A network that answers each request with the next of a list of
    answers, and refuses to connect when the list is used up; requests
    can be made for every URL without a control character, the empty one
    included; a clock that shows one time; a rendering of a payload that
    keeps its content line and the titles of its embeds. *)
Record Network := mkNetwork {
  answers : list (Z * option error)
}.

#[global] Instance network : Discord.Outside Network := {|
  Discord.timeNowRFC1123 := fun _ => "Mon, 02 Jan 2006 15:04:05 UTC";
  Discord.jsonMarshal := fun payload =>
    (Discord.Content payload
     +:+ GoStrings.Join (map Discord.EmbedTitle (Discord.Embeds payload)) ";",
     None);
  Discord.newRequestError := fun url =>
    if hasControlByte url
    then Some "net/url: invalid control character in URL" else None;
  Discord.clientDo := fun req h =>
    match answers h with
    | answer :: rest => (answer, mkNetwork rest)
    | [] => ((0%Z, Some "connection refused"), h)
    end
|}.

Definition hook : string := "https://discord.example/api/webhooks/1".

(** The same URL as read from a file, with the line feed still on it. *)
Definition hookWithLineFeed : string := hook +:+ String "010" "".

Definition discordNotifier (answers : list (Z * option error))
    : Discord.DiscordNotifier Network :=
  Discord.mkDiscordNotifier hook (mkNetwork answers) [].

Definition discordWorld (served : list JobCollection)
    (answers : list (Z * option error)) (stored : list JobCollection)
    : World Doubles.PageScraper (Discord.DiscordNotifier Network)
        (gmap string JobCollection) :=
  mkWorld
    (Doubles.mkPageScraper
       (list_to_map (map (fun c => (SourceURL c, c)) served)))
    (discordNotifier answers)
    (list_to_map (map (fun c => (SourceURL c, c)) stored))
    [].

(** The engineer job, seen again at another address and time. *)
Definition engineerMoved : Job :=
  mkJob "1" "Engineer" "" "" "" "/jobs/1" 7%Z 8%Z.

(** First letter to upper case, for lower-case ASCII names. *)
Definition capitalize (s : string) : string :=
  match s with
  | EmptyString => EmptyString
  | String a rest =>
      let n := Ascii.nat_of_ascii a in
      if bool_decide (97 ≤ n ∧ n ≤ 122)%nat
      then String (Ascii.ascii_of_nat (n - 32)) rest
      else s
  end.

End MoreDoubles.

(** ** What the two loops of [compareScrapeResults] compute *)

Module DiffFacts.
Import Diff.

Lemma foldl_insert_lookup (jobs : list Job) (m : gmap string Job) id :
  foldl (fun m job => <[ID job := job]> m) m jobs !! id
  = match versionOf id jobs with
    | Some job => Some job
    | None => m !! id
    end.
Proof.
  revert m. induction jobs as [|job rest IH]; intros m; simpl; [done|].
  rewrite IH. destruct (versionOf id rest) as [later|]; [done|].
  case_decide as Hid.
  - subst id. by rewrite lookup_insert_eq.
  - by rewrite lookup_insert_ne.
Qed.

Lemma indexJobs_lookup (jobs : list Job) id :
  indexJobs jobs !! id = versionOf id jobs.
Proof.
  unfold indexJobs. rewrite foldl_insert_lookup, lookup_empty.
  by destruct (versionOf id jobs).
Qed.

Lemma versionOf_Some id jobs job :
  versionOf id jobs = Some job → job ∈ jobs ∧ ID job = id.
Proof.
  induction jobs as [|j rest IH]; simpl; [done|].
  destruct (versionOf id rest) as [later|].
  - intros [= <-]. destruct IH as [? ?]; [done|]. split; [by right | done].
  - case_decide; [|done]. intros [= <-]. split; [by left | done].
Qed.

Lemma versionOf_None id jobs :
  versionOf id jobs = None ↔ id ∉ ids jobs.
Proof.
  unfold ids. induction jobs as [|j rest IH]; simpl.
  - split; [intros _; apply not_elem_of_nil | done].
  - rewrite not_elem_of_cons. destruct (versionOf id rest) as [later|].
    + split; [done|]. intros [_ Hrest]. by apply IH in Hrest.
    + case_decide as Hid.
      * split; [done|]. intros [Hne _]. by destruct Hne.
      * split; [|done]. intros _. split; [done|]. by apply IH.
Qed.

Lemma versionOf_is_Some id jobs :
  is_Some (versionOf id jobs) ↔ id ∈ ids jobs.
Proof.
  rewrite <- not_eq_None_Some, versionOf_None.
  split; [apply dec_stable | tauto].
Qed.

(** When the ids of a snapshot are distinct, the version of an id is the
    one job that carries it. *)
Lemma versionOf_NoDup jobs job :
  NoDup (ids jobs) → job ∈ jobs → versionOf (ID job) jobs = Some job.
Proof.
  unfold ids. induction jobs as [|j rest IH]; simpl.
  - intros _ Hin. by apply elem_of_nil in Hin.
  - intros Hnd Hin. apply NoDup_cons in Hnd as [Hfresh Hnd].
    apply elem_of_cons in Hin as [->|Hin].
    + apply (versionOf_None (ID j) rest) in Hfresh. rewrite Hfresh.
      by rewrite decide_True.
    + by rewrite (IH Hnd Hin).
Qed.

Lemma classifyStep_cases pm cm result job :
  classifyStep pm (cm, result) job
  = (<[ID job := job]> cm,
     if decide (newIn pm job) then appendNew result job
     else if decide (updatedIn pm job) then appendUpdated result job
     else result).
Proof.
  unfold classifyStep. simpl.
  destruct (decide (newIn pm job)) as [Hnew|Hnew];
    destruct (decide (updatedIn pm job)) as [Hupd|Hupd];
    unfold newIn, updatedIn in Hnew, Hupd;
    destruct (pm !! ID job) as [prevJob|]; try done.
  - by rewrite Hupd.
  - apply not_true_is_false in Hupd. by rewrite Hupd.
Qed.

Lemma removedStep_cases cm result job :
  removedStep cm result job
  = if decide (removedIn cm job) then appendRemoved result job else result.
Proof.
  unfold removedStep.
  destruct (decide (removedIn cm job)) as [Hrem|Hrem];
    unfold removedIn in Hrem; by destruct (cm !! ID job).
Qed.

Lemma newIn_not_updatedIn pm job : newIn pm job → ¬ updatedIn pm job.
Proof. unfold newIn, updatedIn. intros Hnew. rewrite Hnew. tauto. Qed.

Lemma foldl_classifyStep pm jobs cm result :
  foldl (classifyStep pm) (cm, result) jobs
  = (foldl (fun m job => <[ID job := job]> m) cm jobs,
     mkDiffResult (DiffCompanyName result) (DiffSourceURL result)
       (NewJobs result ++ filter (newIn pm) jobs)
       (RemovedJobs result)
       (UpdatedJobs result ++ filter (updatedIn pm) jobs)).
Proof.
  revert cm result. induction jobs as [|job rest IH]; intros cm result.
  - simpl. rewrite !app_nil_r. by destruct result.
  - simpl. rewrite classifyStep_cases, IH, !filter_cons.
    destruct (decide (newIn pm job)) as [Hnew|Hnew].
    + rewrite decide_False by by apply newIn_not_updatedIn.
      simpl. by rewrite <- app_assoc.
    + destruct (decide (updatedIn pm job)); simpl; [|done].
      by rewrite <- app_assoc.
Qed.

Lemma foldl_removedStep cm jobs result :
  foldl (removedStep cm) result jobs
  = mkDiffResult (DiffCompanyName result) (DiffSourceURL result)
      (NewJobs result)
      (RemovedJobs result ++ filter (removedIn cm) jobs)
      (UpdatedJobs result).
Proof.
  revert result. induction jobs as [|job rest IH]; intros result.
  - simpl. rewrite app_nil_r. by destruct result.
  - simpl. rewrite removedStep_cases, IH, filter_cons.
    destruct (decide (removedIn cm job)); simpl; [|done].
    by rewrite <- app_assoc.
Qed.

(** The result of [compareScrapeResults] in closed form. *)
Lemma compareScrapeResults_eq previous current :
  compareScrapeResults previous current
  = mkDiffResult (CompanyName current) (SourceURL current)
      (filter (newIn (indexJobs (Jobs previous))) (Jobs current))
      (filter (removedIn (indexJobs (Jobs current))) (Jobs previous))
      (filter (updatedIn (indexJobs (Jobs previous))) (Jobs current)).
Proof.
  unfold compareScrapeResults. rewrite foldl_classifyStep. simpl.
  by rewrite foldl_removedStep.
Qed.

End DiffFacts.

(** ** Properties of the diff *)

Module DiffTheorems.
Import Diff DiffFacts.

Lemma filter_none {A} (P : A → Prop) `{!∀ x, Decision (P x)} (l : list A) :
  (∀ x, x ∈ l → ¬ P x) → filter P l = [].
Proof.
  intros Hnone. destruct (filter P l) as [|x rest] eqn:Hfilter; [done|].
  assert (x ∈ filter P l) as Hx by (rewrite Hfilter; left).
  apply list_elem_of_filter in Hx as [HP Hin]. by destruct (Hnone x Hin).
Qed.

Lemma elem_of_ids id jobs :
  id ∈ ids jobs ↔ ∃ job, job ∈ jobs ∧ ID job = id.
Proof.
  unfold ids. change (map ID jobs) with (ID <$> jobs).
  rewrite list_elem_of_fmap. split; intros (job & H1 & H2); eauto.
Qed.

Lemma indexJobs_None id jobs : indexJobs jobs !! id = None ↔ id ∉ ids jobs.
Proof. rewrite indexJobs_lookup. apply versionOf_None. Qed.

Lemma elem_of_NewJobs previous current job :
  job ∈ NewJobs (compareScrapeResults previous current)
  ↔ job ∈ Jobs current ∧ ID job ∉ ids (Jobs previous).
Proof.
  rewrite compareScrapeResults_eq. simpl. rewrite list_elem_of_filter.
  unfold newIn. rewrite indexJobs_None. tauto.
Qed.

Lemma elem_of_UpdatedJobs previous current job :
  job ∈ UpdatedJobs (compareScrapeResults previous current)
  ↔ job ∈ Jobs current
    ∧ ∃ prevJob, versionOf (ID job) (Jobs previous) = Some prevJob
                 ∧ contentDiffers job prevJob = true.
Proof.
  rewrite compareScrapeResults_eq. simpl. rewrite list_elem_of_filter.
  unfold updatedIn. rewrite indexJobs_lookup.
  destruct (versionOf (ID job) (Jobs previous)) as [prevJob|].
  - split.
    + intros [Hdiff Hin]. eauto.
    + intros [Hin (p & [= <-] & Hdiff)]. done.
  - split; [tauto|]. by intros [_ (p & Hp & _)].
Qed.

Lemma elem_of_RemovedJobs previous current job :
  job ∈ RemovedJobs (compareScrapeResults previous current)
  ↔ job ∈ Jobs previous ∧ ID job ∉ ids (Jobs current).
Proof.
  rewrite compareScrapeResults_eq. simpl. rewrite list_elem_of_filter.
  unfold removedIn. rewrite indexJobs_None. tauto.
Qed.

Lemma ids_NewJobs previous current id :
  id ∈ ids (NewJobs (compareScrapeResults previous current))
  ↔ id ∈ ids (Jobs current) ∧ id ∉ ids (Jobs previous).
Proof.
  split.
  - intros Hid. apply elem_of_ids in Hid as (job & Hin & <-).
    apply elem_of_NewJobs in Hin as [Hin Hfresh].
    split; [|done]. apply elem_of_ids. eauto.
  - intros [Hid Hfresh]. apply elem_of_ids in Hid as (job & Hin & <-).
    apply elem_of_ids. exists job. split; [|done]. by apply elem_of_NewJobs.
Qed.

Lemma ids_UpdatedJobs previous current id :
  id ∈ ids (UpdatedJobs (compareScrapeResults previous current))
  → id ∈ ids (Jobs current) ∧ id ∈ ids (Jobs previous).
Proof.
  intros Hid. apply elem_of_ids in Hid as (job & Hin & <-).
  apply elem_of_UpdatedJobs in Hin as [Hin (prevJob & Hversion & _)].
  split; [apply elem_of_ids; eauto|]. apply versionOf_is_Some. eauto.
Qed.

Lemma ids_RemovedJobs previous current id :
  id ∈ ids (RemovedJobs (compareScrapeResults previous current))
  ↔ id ∈ ids (Jobs previous) ∧ id ∉ ids (Jobs current).
Proof.
  split.
  - intros Hid. apply elem_of_ids in Hid as (job & Hin & <-).
    apply elem_of_RemovedJobs in Hin as [Hin Hgone].
    split; [|done]. apply elem_of_ids. eauto.
  - intros [Hid Hgone]. apply elem_of_ids in Hid as (job & Hin & <-).
    apply elem_of_ids. exists job. split; [|done].
    by apply elem_of_RemovedJobs.
Qed.

(** Of the jobs of the previous snapshot, those with an id that the
    current one lacks are all kept in [RemovedJobs]. *)
Lemma occurrences_RemovedJobs previous current id :
  id ∉ ids (Jobs current) →
  occurrences id (RemovedJobs (compareScrapeResults previous current))
  = occurrences id (Jobs previous).
Proof.
  intros Hgone. rewrite compareScrapeResults_eq. simpl. unfold occurrences.
  f_equal. rewrite list_filter_filter. apply list_filter_iff.
  intros job. unfold removedIn. rewrite indexJobs_None.
  split; [tauto|]. intros <-. done.
Qed.

Lemma occurrences_NoDup id jobs :
  NoDup (ids jobs) → id ∈ ids jobs → occurrences id jobs = 1.
Proof.
  unfold occurrences, ids. induction jobs as [|job rest IH]; simpl.
  - intros _ Hin. by apply elem_of_nil in Hin.
  - intros Hnd Hin. apply NoDup_cons in Hnd as [Hfresh Hnd].
    rewrite filter_cons. case_decide as Hid.
    + subst id. simpl. f_equal. rewrite filter_none; [done|].
      intros other Hother Hsame. apply Hfresh. rewrite <- Hsame.
      by apply (list_elem_of_fmap_2 ID).
    + apply elem_of_cons in Hin as [Heq|Hin]; [by destruct Hid|]. by apply IH.
Qed.

(** C2, as stated, fails: an id that the previous snapshot lists twice
    and the current one lacks appears twice in RemovedJobs. *)
Lemma removed_twice :
  SourceURL Doubles.twiceListed = SourceURL (Doubles.snapshot Doubles.acme [])
  ∧ "2" ∈ ids (Jobs Doubles.twiceListed)
  ∧ ("2" ∉ ids (Jobs (Doubles.snapshot Doubles.acme [])))
  ∧ occurrences "2"
      (RemovedJobs
         (compareScrapeResults Doubles.twiceListed
            (Doubles.snapshot Doubles.acme [])))
    = 2.
Proof.
  split; [done|]. split; [|split].
  - apply elem_of_ids. exists (Doubles.designer). split; [left|done].
  - simpl. apply not_elem_of_nil.
  - by vm_compute.
Qed.

(** C2 (amended): for any two snapshots, an id of the current snapshot is
    in NewJobs exactly when the previous snapshot lacks it, and it is in
    exactly one of NewJobs, UpdatedJobs, or none of the three lists; an id
    of the previous snapshot that the current one lacks occurs in
    RemovedJobs as often as in the previous snapshot, which is once when
    the ids of the previous snapshot are distinct; and no id is in two of
    the three lists. *)
Theorem compare_partition (previous current : JobCollection) :
  let diff := compareScrapeResults previous current in
  (∀ id, id ∈ ids (Jobs current) →
     (id ∈ ids (NewJobs diff) ↔ id ∉ ids (Jobs previous))
     ∧ ((id ∈ ids (NewJobs diff) ∧ (id ∉ ids (UpdatedJobs diff))
         ∧ (id ∉ ids (RemovedJobs diff)))
        ∨ ((id ∉ ids (NewJobs diff)) ∧ id ∈ ids (UpdatedJobs diff)
           ∧ (id ∉ ids (RemovedJobs diff)))
        ∨ ((id ∉ ids (NewJobs diff)) ∧ (id ∉ ids (UpdatedJobs diff))
           ∧ (id ∉ ids (RemovedJobs diff)))))
  ∧ (∀ id, id ∈ ids (Jobs previous) → id ∉ ids (Jobs current) →
       id ∈ ids (RemovedJobs diff)
       ∧ occurrences id (RemovedJobs diff) = occurrences id (Jobs previous)
       ∧ (NoDup (ids (Jobs previous)) →
          occurrences id (RemovedJobs diff) = 1))
  ∧ (∀ id,
       ¬ (id ∈ ids (NewJobs diff) ∧ id ∈ ids (UpdatedJobs diff))
       ∧ ¬ (id ∈ ids (NewJobs diff) ∧ id ∈ ids (RemovedJobs diff))
       ∧ ¬ (id ∈ ids (UpdatedJobs diff) ∧ id ∈ ids (RemovedJobs diff))).
Proof.
  intros diff. subst diff.
  assert (∀ id,
    ¬ (id ∈ ids (NewJobs (compareScrapeResults previous current))
       ∧ id ∈ ids (UpdatedJobs (compareScrapeResults previous current))))
    as Hnu.
  { intros id [Hnew Hupd]. apply ids_NewJobs in Hnew as [_ Hfresh].
    apply ids_UpdatedJobs in Hupd as [_ Hold]. by apply Hfresh. }
  split; [|split].
  - intros id Hcur.
    assert (id ∉ ids (RemovedJobs (compareScrapeResults previous current)))
      as Hrem.
    { intros Hrem. apply ids_RemovedJobs in Hrem as [_ Hgone].
      by apply Hgone. }
    split.
    + rewrite ids_NewJobs. tauto.
    + destruct (decide
        (id ∈ ids (NewJobs (compareScrapeResults previous current))))
        as [Hnew|Hnew].
      * left. split; [done|]. split; [|done]. intros Hupd. by apply (Hnu id).
      * destruct (decide
          (id ∈ ids (UpdatedJobs (compareScrapeResults previous current))));
          [right; left | right; right]; done.
  - intros id Hold Hgone. split; [by apply ids_RemovedJobs|].
    split; [by apply occurrences_RemovedJobs|].
    intros Hnd. rewrite occurrences_RemovedJobs by done.
    by apply occurrences_NoDup.
  - intros id. split; [apply Hnu|]. split.
    + intros [Hnew Hrem]. apply ids_NewJobs in Hnew as [Hcur _].
      apply ids_RemovedJobs in Hrem as [_ Hgone]. by apply Hgone.
    + intros [Hupd Hrem]. apply ids_UpdatedJobs in Hupd as [Hcur _].
      apply ids_RemovedJobs in Hrem as [_ Hgone]. by apply Hgone.
Qed.

(** C3, as stated, fails: a snapshot that lists one id under two titles,
    compared with itself, reports the first entry as updated. *)
Lemma compare_self_updated :
  UpdatedJobs (compareScrapeResults Doubles.retitled Doubles.retitled)
  = [Doubles.engineer].
Proof. by vm_compute. Qed.

Lemma contentDiffers_false job prevJob :
  contentDiffers job prevJob = false
  ↔ Title job = Title prevJob ∧ Description job = Description prevJob
    ∧ Location job = Location prevJob ∧ Department job = Department prevJob.
Proof.
  unfold contentDiffers. rewrite !orb_false_iff, !bool_decide_eq_false.
  split.
  - intros [[[Ht Hd] Hl] Hp]. repeat split; by apply dec_stable.
  - intros (Ht & Hd & Hl & Hp). repeat split; intros Hne; by apply Hne.
Qed.

(** Every job of a snapshot has a version in it. *)
Lemma versionOf_elem_of job jobs :
  job ∈ jobs →
  ∃ last, versionOf (ID job) jobs = Some last
          ∧ last ∈ jobs ∧ ID last = ID job.
Proof.
  intros Hin.
  destruct (versionOf (ID job) jobs) as [last|] eqn:Hversion.
  - exists last. split; [done|]. by apply versionOf_Some.
  - apply versionOf_None in Hversion. destruct Hversion.
    apply elem_of_ids. eauto.
Qed.

(** C3 (amended): for every snapshot, the comparison with itself has
    empty NewJobs and RemovedJobs, and its UpdatedJobs is empty exactly
    when any two entries of the snapshot with the same id have the same
    title, description, location and department; so it is empty when
    the ids are distinct. *)
Theorem compare_self (snapshot : JobCollection) :
  NewJobs (compareScrapeResults snapshot snapshot) = []
  ∧ RemovedJobs (compareScrapeResults snapshot snapshot) = []
  ∧ (UpdatedJobs (compareScrapeResults snapshot snapshot) = []
     ↔ ∀ job other,
         job ∈ Jobs snapshot → other ∈ Jobs snapshot → ID job = ID other →
         Title job = Title other ∧ Description job = Description other
         ∧ Location job = Location other
         ∧ Department job = Department other)
  ∧ (NoDup (ids (Jobs snapshot)) →
     UpdatedJobs (compareScrapeResults snapshot snapshot) = []).
Proof.
  rewrite compareScrapeResults_eq. simpl.
  assert (∀ job, job ∈ Jobs snapshot →
    ¬ newIn (indexJobs (Jobs snapshot)) job) as Hheld.
  { intros job Hin Hnew. unfold newIn in Hnew.
    rewrite indexJobs_lookup in Hnew.
    destruct (versionOf_elem_of job (Jobs snapshot) Hin) as (l & Hl & _).
    congruence. }
  split; [by apply filter_none|]. split; [by apply filter_none|]. split.
  - split.
    + intros Hnone job other Hjob Hother Hid.
      destruct (versionOf_elem_of job (Jobs snapshot) Hjob)
        as (last & Hlast & _ & _).
      assert (∀ j, j ∈ Jobs snapshot → ID j = ID job →
        contentDiffers j last = false) as Hagree.
      { intros j Hj Hidj.
        destruct (contentDiffers j last) eqn:Hdiff; [|done].
        destruct (filter_nil_not_elem_of
                    (updatedIn (indexJobs (Jobs snapshot)))
                    (Jobs snapshot) j Hnone); [|done].
        unfold updatedIn. by rewrite indexJobs_lookup, Hidj, Hlast. }
      pose proof (Hagree job Hjob eq_refl) as Hj.
      pose proof (Hagree other Hother (eq_sym Hid)) as Ho.
      apply contentDiffers_false in Hj as (Ht & Hd & Hl & Hp).
      apply contentDiffers_false in Ho as (Ht' & Hd' & Hl' & Hp').
      repeat split; congruence.
    + intros Hsame. apply filter_none. intros job Hin Hupd.
      unfold updatedIn in Hupd. rewrite indexJobs_lookup in Hupd.
      destruct (versionOf_elem_of job (Jobs snapshot) Hin)
        as (last & Hlast & Hlin & Hlid).
      rewrite Hlast in Hupd.
      assert (contentDiffers job last = false) as Hno; [|congruence].
      apply contentDiffers_false. by apply Hsame.
  - intros Hnd. apply filter_none. intros job Hin Hupd.
    unfold updatedIn in Hupd.
    rewrite indexJobs_lookup, versionOf_NoDup in Hupd by done.
    assert (contentDiffers job job = false) as Hno; [|congruence].
    by apply contentDiffers_false.
Qed.

(** [compare_self] on a snapshot that lists one job twice: nothing is
    reported as updated. *)
Lemma compare_self_witness :
  UpdatedJobs (compareScrapeResults Doubles.twiceListed Doubles.twiceListed)
  = [].
Proof.
  apply (proj2 (proj1 (proj2 (proj2
           (compare_self Doubles.twiceListed))))).
  intros job other Hjob Hother _.
  assert (∀ j, j ∈ Jobs Doubles.twiceListed → j = Doubles.designer)
    as Honly.
  { intros j Hj. simpl in Hj.
    repeat (apply elem_of_cons in Hj as [->|Hj]; [done|]).
    by apply elem_of_nil in Hj. }
  by rewrite (Honly job Hjob), (Honly other Hother).
Defined.

Lemma contentDiffers_true job prevJob :
  contentDiffers job prevJob = true
  ↔ Title job ≠ Title prevJob ∨ Description job ≠ Description prevJob
    ∨ Location job ≠ Location prevJob ∨ Department job ≠ Department prevJob.
Proof.
  unfold contentDiffers. rewrite !orb_true_iff, !bool_decide_eq_true. tauto.
Qed.

(** A job of the current snapshot whose id the previous snapshot holds
    is compared with the version held there. *)
Lemma elem_of_UpdatedJobs_version previous current job prevJob :
  job ∈ Jobs current →
  versionOf (ID job) (Jobs previous) = Some prevJob →
  job ∈ UpdatedJobs (compareScrapeResults previous current)
  ↔ contentDiffers job prevJob = true.
Proof.
  intros Hin Hversion. rewrite elem_of_UpdatedJobs. split.
  - intros [_ (p & Hp & Hdiff)]. congruence.
  - intros Hdiff. eauto.
Qed.

(** With distinct ids in the previous snapshot, the version is the one
    job of that snapshot with the id. *)
Lemma updated_iff_content_differs_distinct_ids
    (previous current : JobCollection) (job prevJob : Job) :
  NoDup (ids (Jobs previous)) →
  job ∈ Jobs current → prevJob ∈ Jobs previous → ID prevJob = ID job →
  job ∈ UpdatedJobs (compareScrapeResults previous current)
  ↔ Title job ≠ Title prevJob ∨ Description job ≠ Description prevJob
    ∨ Location job ≠ Location prevJob
    ∨ Department job ≠ Department prevJob.
Proof.
  intros Hnd Hin Hprev Hid.
  rewrite (elem_of_UpdatedJobs_version previous current job prevJob Hin).
  - apply contentDiffers_true.
  - rewrite <- Hid. by apply versionOf_NoDup.
Qed.

(** C4: a job of the current snapshot whose id the previous snapshot
    holds (in the version [prevJob], the entry the id maps to) is in
    UpdatedJobs exactly when its title, description, location or
    department is not the one of [prevJob]; it is never in NewJobs; when
    the four fields agree it is in none of the lists, whatever its URL and
    dates; when the title differs it is in UpdatedJobs. *)
Theorem updated_iff_content_differs
    (previous current : JobCollection) (job prevJob : Job) :
  job ∈ Jobs current →
  versionOf (ID job) (Jobs previous) = Some prevJob →
  let diff := compareScrapeResults previous current in
  (job ∈ UpdatedJobs diff
   ↔ Title job ≠ Title prevJob ∨ Description job ≠ Description prevJob
     ∨ Location job ≠ Location prevJob
     ∨ Department job ≠ Department prevJob)
  ∧ (job ∉ NewJobs diff)
  ∧ (Title job = Title prevJob → Description job = Description prevJob →
     Location job = Location prevJob → Department job = Department prevJob →
     (job ∉ NewJobs diff) ∧ (job ∉ UpdatedJobs diff)
     ∧ (ID job ∉ ids (RemovedJobs diff)))
  ∧ (Title job ≠ Title prevJob → job ∈ UpdatedJobs diff).
Proof.
  intros Hin Hversion diff. subst diff.
  assert (job ∉ NewJobs (compareScrapeResults previous current)) as Hnotnew.
  { intros Hnew. apply elem_of_NewJobs in Hnew as [_ Hfresh].
    apply Hfresh, versionOf_is_Some. eauto. }
  pose proof (elem_of_UpdatedJobs_version previous current job prevJob
                Hin Hversion) as Hupd.
  split; [by rewrite Hupd, contentDiffers_true|].
  split; [done|]. split.
  - intros Ht Hd Hl Hp. split; [done|]. split.
    + rewrite Hupd, contentDiffers_true. tauto.
    + intros Hrem. apply ids_RemovedJobs in Hrem as [_ Hgone].
      apply Hgone, elem_of_ids. eauto.
  - intros Ht. apply Hupd, contentDiffers_true. tauto.
Qed.

(** [updated_iff_content_differs] on the first example of the
    specification: the retitled job is in UpdatedJobs. *)
Lemma updated_iff_content_differs_witness :
  let previous := Doubles.snapshot Doubles.acme [Doubles.engineer] in
  let current :=
    Doubles.snapshot Doubles.acme
      [Doubles.seniorEngineer; Doubles.designer] in
  Doubles.seniorEngineer
  ∈ UpdatedJobs (compareScrapeResults previous current).
Proof.
  refine (proj2 (proj2 (proj2
    (updated_iff_content_differs
       (Doubles.snapshot Doubles.acme [Doubles.engineer])
       (Doubles.snapshot Doubles.acme
          [Doubles.seniorEngineer; Doubles.designer])
       (Doubles.seniorEngineer) (Doubles.engineer)
       _ _))) _).
  - simpl. left.
  - reflexivity.
  - simpl. discriminate.
Defined.

(** The first example of the specification. *)
Example compare_example_retitled_and_added :
  compareScrapeResults
    (Doubles.snapshot Doubles.acme [Doubles.engineer])
    (Doubles.snapshot Doubles.acme
       [Doubles.seniorEngineer; Doubles.designer])
  = mkDiffResult "Acme" Doubles.acme
      [Doubles.designer] [] [Doubles.seniorEngineer].
Proof. by vm_compute. Qed.

(** A change of the URL and of the dates alone is no change. *)
Example compare_example_url_only :
  compareScrapeResults
    (Doubles.snapshot Doubles.acme
       [mkJob "1" "Engineer" "d" "l" "p" "/a" 1%Z 2%Z])
    (Doubles.snapshot Doubles.acme
       [mkJob "1" "Engineer" "d" "l" "p" "/b" 3%Z 4%Z])
  = mkDiffResult "Acme" Doubles.acme [] [] [].
Proof. by vm_compute. Qed.

End DiffTheorems.

(** ** The in-memory repository *)

Module MemoryRepositoryTheorems.

(** C7: for a URL without a stored snapshot, GetLatestJobCollection
    returns the zero-value collection and a nil error, and leaves the
    repository as it was. *)
Theorem get_latest_missing (collections : gmap string JobCollection)
    (url : string) :
  collections !! url = None →
  MemoryRepository.GetLatestJobCollection url collections
  = ((emptyJobCollection, None), collections).
Proof.
  intros Hmissing. unfold MemoryRepository.GetLatestJobCollection.
  by rewrite Hmissing.
Qed.

(** [get_latest_missing] on a fresh repository. *)
Lemma get_latest_missing_witness :
  MemoryRepository.GetLatestJobCollection Doubles.acme
    MemoryRepository.NewMemoryRepository
  = ((emptyJobCollection, None), MemoryRepository.NewMemoryRepository).
Proof. apply get_latest_missing. apply lookup_empty. Defined.

(** C9: after SaveJobCollection(c), GetLatestJobCollection(c.SourceURL)
    returns c with a nil error, whatever was stored before, and the entry
    of every other URL is the one from before the save. *)
Theorem save_then_get (collections : gmap string JobCollection)
    (c : JobCollection) :
  let saved := snd (MemoryRepository.SaveJobCollection c collections) in
  fst (MemoryRepository.GetLatestJobCollection (SourceURL c) saved)
  = (c, None)
  ∧ delete (SourceURL c) saved = delete (SourceURL c) collections
  ∧ ∀ url, url ≠ SourceURL c →
      saved !! url = collections !! url
      ∧ fst (MemoryRepository.GetLatestJobCollection url saved)
        = fst (MemoryRepository.GetLatestJobCollection url collections).
Proof.
  intros saved. subst saved. simpl. split; [|split].
  - unfold MemoryRepository.GetLatestJobCollection.
    by rewrite lookup_insert_eq.
  - by rewrite delete_insert_eq.
  - intros url Hother. unfold MemoryRepository.GetLatestJobCollection.
    rewrite lookup_insert_ne by done. split; [done|].
    by destruct (collections !! url).
Qed.

(** Neither operation of the in-memory repository returns an error. *)
Lemma save_never_fails (collections : gmap string JobCollection) c :
  fst (SaveJobCollection c collections) = None.
Proof. done. Qed.

Lemma get_latest_never_fails (collections : gmap string JobCollection) url :
  snd (fst (GetLatestJobCollection url collections)) = None.
Proof.
  simpl. unfold MemoryRepository.GetLatestJobCollection.
  by destruct (collections !! url).
Qed.

End MemoryRepositoryTheorems.

(** ** The service *)

Module ServiceTheorems.

Lemma scrapes_app t1 t2 : scrapes (t1 ++ t2) = scrapes t1 ++ scrapes t2.
Proof. apply omap_app. Qed.

Lemma notifications_app t1 t2 :
  notifications (t1 ++ t2) = notifications t1 ++ notifications t2.
Proof. apply omap_app. Qed.

Lemma saves_app t1 t2 : saves (t1 ++ t2) = saves t1 ++ saves t2.
Proof. apply omap_app. Qed.

Lemma lookupFailures_app t1 t2 :
  lookupFailures (t1 ++ t2) = lookupFailures t1 ++ lookupFailures t2.
Proof. apply omap_app. Qed.

Lemma lookups_app t1 t2 : lookups (t1 ++ t2) = lookups t1 ++ lookups t2.
Proof. apply omap_app. Qed.

Create Rewrite HintDb trace.
#[local] Hint Rewrite scrapes_app notifications_app saves_app
  lookupFailures_app lookups_app : trace.
#[local] Hint Rewrite <- app_assoc : trace.
#[local] Hint Rewrite app_nil_r : trace.

(** Run a method of the service down to the calls of the ports. *)
Ltac run :=
  cbv beta iota zeta delta
    [ScrapeAndNotify processSingleURL callSaveJobCollection
     callGetLatestJobCollection callNotifyNewJobs callScrape logPrintf
     emit bind ret scraper notifier repository trace].

(** Compare the traces of the two sides. *)
Ltac traces := simpl; autorewrite with trace; simpl; try done.

Section Generic.
Context {S N R : Type}.
Context `{!Scraper S, !Notifier N, !JobRepository R}.

(** Case analysis on the results of the ports met along a run. *)
Ltac branches :=
  repeat match goal with
  | |- context [Scrape ?url ?s] =>
      destruct (Scrape url s) as [[? [?|]] ?]; run
  | |- context [GetLatestJobCollection ?url ?r] =>
      destruct (GetLatestJobCollection url r) as [[? [?|]] ?]; run
  | |- context [hasChanges ?diff] => destruct (hasChanges diff); run
  | |- context [NotifyNewJobs ?diff ?n] =>
      destruct (NotifyNewJobs diff n) as [[?|] ?]; run
  | |- context [SaveJobCollection ?c ?r] =>
      destruct (SaveJobCollection c r) as [[?|] ?]; run
  end.

(** C8: when Scrape fails for a URL, processSingleURL returns the wrapped
    error having called neither SaveJobCollection nor NotifyNewJobs (nor
    the lookup): the trace grows by the first log line and the call of
    Scrape, and the repository and the notifier are as before. *)
Theorem scrape_failure_mutates_nothing (url : string) (w : World S N R)
    (err : error) :
  snd (fst (Scrape url (scraper w))) = Some err →
  let r := processSingleURL url w in
  fst r = Some ("failed to scrape URL " +:+ url +:+ ": " +:+ err)
  ∧ trace (snd r) = trace w ++ [Log (LogStartingScrape url); CallScrape url]
  ∧ saves (trace (snd r)) = saves (trace w)
  ∧ notifications (trace (snd r)) = notifications (trace w)
  ∧ repository (snd r) = repository w
  ∧ notifier (snd r) = notifier w.
Proof.
  destruct w as [s n r t]. simpl. intros Hfail. run.
  destruct (Scrape url s) as [[current failed] s']. simpl in Hfail.
  subst failed. traces.
Qed.

(** C5: when a previous snapshot was read, the diff is not empty and
    NotifyNewJobs fails, processSingleURL logs the failure and then calls
    SaveJobCollection with the scraped collection: that is the one save
    of the run, and it decides the repository state and the result. *)
Theorem notify_failure_still_saves (url : string) (w : World S N R)
    (current previous : JobCollection) (s' : S) (r' : R) (n' : N)
    (err : error) :
  Scrape url (scraper w) = ((current, None), s') →
  GetLatestJobCollection url (repository w) = ((previous, None), r') →
  hasChanges (Diff.compareScrapeResults previous current) = true →
  NotifyNewJobs (Diff.compareScrapeResults previous current) (notifier w)
  = (Some err, n') →
  let r := processSingleURL url w in
  (∃ before after,
     trace (snd r)
     = trace w ++ before
       ++ [CallNotifyNewJobs (Diff.compareScrapeResults previous current);
           Log (LogNotificationFailed err);
           Log (LogSaving url);
           CallSaveJobCollection current]
       ++ after)
  ∧ saves (trace (snd r)) = saves (trace w) ++ [current]
  ∧ repository (snd r) = snd (SaveJobCollection current r')
  ∧ fst r = match fst (SaveJobCollection current r') with
            | Some e => Some ("failed to save job collection: " +:+ e)
            | None => None
            end.
Proof.
  destruct w as [s n r t]. simpl.
  intros Hscrape Hlookup Hchanged Hnotify. run.
  rewrite Hscrape. run. rewrite Hlookup. run. rewrite Hchanged. run.
  rewrite Hnotify. run.
  destruct (SaveJobCollection current r') as [[e|] r'']; run.
  - split; [|traces]. eexists [_; _; _; _; _; _; _], []. traces.
  - split; [|traces]. eexists [_; _; _; _; _; _; _], [_]. traces.
Qed.

(** Whatever happens, one run of processSingleURL calls Scrape once, for
    its URL. *)
Lemma processSingleURL_scrapes (url : string) (w : World S N R) :
  scrapes (trace (snd (processSingleURL url w))) = scrapes (trace w) ++ [url].
Proof.
  destruct w as [s n r t]. run. branches; traces.
Qed.

(** The loop body for one URL, then the rest of the loop: the rest runs
    from the world the body leaves, with or without an error. *)
Lemma forEachURL_cons (url : string) (rest : list string) (w : World S N R) :
  forEachURL (url :: rest) w
  = forEachURL rest (snd (forEachURL [url] w)).
Proof.
  simpl. unfold bind, ret, logPrintf, emit.
  destruct (processSingleURL url _) as [[err|] w']; done.
Qed.

Lemma forEachURL_app (before after : list string) (w : World S N R) :
  forEachURL (before ++ after) w
  = forEachURL after (snd (forEachURL before w)).
Proof.
  revert w. induction before as [|url rest IH]; intros w; [done|].
  rewrite <- app_comm_cons, forEachURL_cons, IH.
  by rewrite (forEachURL_cons url rest).
Qed.

(** The world after the loop body for one URL is the one processSingleURL
    leaves, plus the line that reports its error, if any. *)
Lemma forEachURL_one (url : string) (w : World S N R) :
  snd (forEachURL [url] w)
  = let r := processSingleURL url
               (snd (logPrintf (LogProcessingURL url) w)) in
    match fst r with
    | Some err => snd (logPrintf (LogErrorProcessing url err) (snd r))
    | None => snd r
    end.
Proof.
  simpl. unfold bind, ret, logPrintf, emit. simpl.
  destruct (processSingleURL url _) as [[err|] w']; done.
Qed.

Lemma forEachURL_scrapes (urls : list string) (w : World S N R) :
  scrapes (trace (snd (forEachURL urls w))) = scrapes (trace w) ++ urls.
Proof.
  revert w. induction urls as [|url rest IH]; intros w.
  - simpl. by rewrite app_nil_r.
  - rewrite forEachURL_cons, IH, forEachURL_one. cbv zeta.
    pose proof (processSingleURL_scrapes url
                  (snd (logPrintf (LogProcessingURL url) w))) as Hone.
    destruct (processSingleURL url _) as [[err|] w']; simpl in *;
      autorewrite with trace in *; simpl in *; rewrite ?Hone;
      autorewrite with trace; done.
Qed.

Lemma processSingleURL_pipeline (url : string) (w : World S N R) :
  pipelineRan url w (snd (processSingleURL url w)).
Proof.
  unfold pipelineRan. destruct w as [s n r t]. run.
  destruct (Scrape url s) as [[current [serr|]] s']; run; [traces|].
  destruct (GetLatestJobCollection url r) as [[previous [lerr|]] r']; run;
    cbn [fst snd].
  - destruct (SaveJobCollection current r') as [[e|] r'']; run; traces.
  - destruct (hasChanges _); run; cbn [fst snd].
    + destruct (NotifyNewJobs _ n) as [[nerr|] n']; run; cbn [fst snd];
        destruct (SaveJobCollection current r') as [[e|] r'']; run; traces.
    + destruct (SaveJobCollection current r') as [[e|] r'']; run; traces.
Qed.

(** The trace only grows. *)
Lemma processSingleURL_extends (url : string) (w : World S N R) :
  trace w `prefix_of` trace (snd (processSingleURL url w)).
Proof.
  destruct w as [s n r t]. run.
  branches; simpl; autorewrite with trace; by eexists.
Qed.

Lemma forEachURL_extends (urls : list string) (w : World S N R) :
  trace w `prefix_of` trace (snd (forEachURL urls w)).
Proof.
  revert w. induction urls as [|url rest IH]; intros w; [done|].
  rewrite forEachURL_cons. etrans; [|apply IH].
  rewrite forEachURL_one. cbv zeta.
  pose proof (processSingleURL_extends url
                (snd (logPrintf (LogProcessingURL url) w))) as Hone.
  destruct (processSingleURL url _) as [[err|] w']; simpl in *.
  - apply prefix_app_r. etrans; [|exact Hone]. by apply prefix_app_r.
  - etrans; [|exact Hone]. by apply prefix_app_r.
Qed.

(** C6: ScrapeAndNotify returns nil for every list of URLs and every
    behaviour of the ports; it calls Scrape for each URL of the list, in
    order; and for each URL of the list, whatever failed before it,
    processSingleURL runs from the world left by the URLs before it and
    runs in full (after a successful Scrape: the lookup, the
    notification of a diff with a change, the save), its calls are part
    of the trace of the pass, and the URLs after it are processed from
    the world it leaves, whether it failed or not. *)
Theorem scrape_and_notify_isolates (urls : list string) (w : World S N R) :
  fst (ScrapeAndNotify urls w) = None
  ∧ scrapes (trace (snd (ScrapeAndNotify urls w))) = scrapes (trace w) ++ urls
  ∧ ∀ before url after, urls = before ++ url :: after →
      let start := snd (logPrintf (LogStartingJob (length urls)) w) in
      let reached :=
        snd (logPrintf (LogProcessingURL url)
               (snd (forEachURL before start))) in
      let r := processSingleURL url reached in
      let left :=
        match fst r with
        | Some err => snd (logPrintf (LogErrorProcessing url err) (snd r))
        | None => snd r
        end in
      snd (ScrapeAndNotify urls w)
      = snd (logPrintf LogCompletedJob (snd (forEachURL after left)))
      ∧ pipelineRan url reached (snd r)
      ∧ trace (snd r) `prefix_of` trace (snd (ScrapeAndNotify urls w)).
Proof.
  assert (∀ w0 : World S N R,
    ScrapeAndNotify urls w0
    = (None, snd (logPrintf LogCompletedJob
              (snd (forEachURL urls
                 (snd (logPrintf (LogStartingJob (length urls)) w0)))))))
    as Hpass.
  { intros w0. unfold ScrapeAndNotify, bind, ret, logPrintf, emit. simpl.
    by destruct (forEachURL urls _) as [[] w']. }
  rewrite Hpass. split; [done|]. split.
  - simpl. autorewrite with trace. rewrite forEachURL_scrapes. traces.
  - intros before url after Hsplit start reached r left.
    assert (snd (None : option error,
                 snd (logPrintf LogCompletedJob
                        (snd (forEachURL urls start))))
            = snd (logPrintf LogCompletedJob (snd (forEachURL after left))))
      as Hrest.
    { subst urls left r reached start. cbn [snd].
      by rewrite forEachURL_app, forEachURL_cons, forEachURL_one. }
    split; [exact Hrest|]. split; [apply processSingleURL_pipeline|].
    fold start. rewrite Hrest. simpl. apply prefix_app_r.
    etrans; [|apply forEachURL_extends].
    subst left. destruct (fst r); [|done]. simpl. by apply prefix_app_r.
Qed.

(** The branch taken when the lookup fails leaves its line in the
    trace. *)
Lemma lookup_failure_is_logged (url : string) (w : World S N R)
    (current previous : JobCollection) (s' : S) (r' : R) (err : error) :
  Scrape url (scraper w) = ((current, None), s') →
  GetLatestJobCollection url (repository w) = ((previous, Some err), r') →
  lookupFailures (trace (snd (processSingleURL url w)))
  = lookupFailures (trace w) ++ [(url, err)].
Proof.
  destruct w as [s n r t]. simpl. intros Hscrape Hlookup. run.
  rewrite Hscrape. run. rewrite Hlookup. run.
  destruct (SaveJobCollection current r') as [[e|] r'']; traces.
Qed.

End Generic.

Section InMemory.
Context {S N : Type}.
Context `{!Scraper S, !Notifier N}.

(** Case analysis along a run on the in-memory repository. *)
Ltac memory_branches :=
  repeat match goal with
  | |- context [Scrape ?url ?s] =>
      destruct (Scrape url s) as [[? [?|]] ?]; run
  | |- context [GetLatestJobCollection ?url ?r] =>
      change (GetLatestJobCollection url r)
        with (MemoryRepository.GetLatestJobCollection url r);
      unfold MemoryRepository.GetLatestJobCollection;
      destruct (r !! url); run
  | |- context [hasChanges ?diff] => destruct (hasChanges diff); run
  | |- context [NotifyNewJobs ?diff ?n] =>
      destruct (NotifyNewJobs diff n) as [[?|] ?]; run
  | |- context [SaveJobCollection ?c ?r] =>
      change (SaveJobCollection c r)
        with (MemoryRepository.SaveJobCollection c r);
      unfold MemoryRepository.SaveJobCollection; run
  end.

Lemma processSingleURL_lookupFailures (url : string)
    (w : World S N (gmap string JobCollection)) :
  lookupFailures (trace (snd (processSingleURL url w)))
  = lookupFailures (trace w).
Proof.
  destruct w as [s n r t]. run. memory_branches; traces.
Qed.

Lemma forEachURL_lookupFailures (urls : list string)
    (w : World S N (gmap string JobCollection)) :
  lookupFailures (trace (snd (forEachURL urls w))) = lookupFailures (trace w).
Proof.
  revert w. induction urls as [|url rest IH]; intros w; [done|].
  rewrite forEachURL_cons, IH, forEachURL_one. cbv zeta.
  pose proof (processSingleURL_lookupFailures url
                (snd (logPrintf (LogProcessingURL url) w))) as Hone.
  destruct (processSingleURL url _) as [[err|] w']; simpl in *;
    autorewrite with trace in *; simpl in *; rewrite ?Hone;
    autorewrite with trace; done.
Qed.

(** C10: SaveJobCollection and GetLatestJobCollection of the in-memory
    repository return a nil error for every argument and every state;
    so a service that runs on it never takes the branch of
    processSingleURL for a failed lookup: neither one run of
    processSingleURL nor a whole pass of ScrapeAndNotify logs the line of
    that branch. *)
Theorem memory_lookup_failure_unreachable :
  (∀ (collections : gmap string JobCollection) c,
     fst (SaveJobCollection c collections) = None)
  ∧ (∀ (collections : gmap string JobCollection) url,
       snd (fst (GetLatestJobCollection url collections)) = None)
  ∧ (∀ url (w : World S N (gmap string JobCollection)),
       lookupFailures (trace (snd (processSingleURL url w)))
       = lookupFailures (trace w))
  ∧ (∀ urls (w : World S N (gmap string JobCollection)),
       lookupFailures (trace (snd (ScrapeAndNotify urls w)))
       = lookupFailures (trace w)).
Proof.
  split; [apply MemoryRepositoryTheorems.save_never_fails|].
  split; [apply MemoryRepositoryTheorems.get_latest_never_fails|].
  split; [apply processSingleURL_lookupFailures|].
  intros urls w. unfold ScrapeAndNotify, bind, ret, logPrintf, emit.
  pose proof (forEachURL_lookupFailures urls
    (mkWorld (scraper w) (notifier w) (repository w)
       (trace w ++ [Log (LogStartingJob (length urls))]))) as Hloop.
  destruct (forEachURL urls _) as [[] w']. simpl in *.
  autorewrite with trace in *. simpl in *. rewrite Hloop. traces.
Qed.

Lemma filter_all {A} (P : A → Prop) `{!∀ x, Decision (P x)} (l : list A) :
  (∀ x, x ∈ l → P x) → filter P l = l.
Proof.
  induction l as [|x rest IH]; intros Hall; [done|].
  rewrite filter_cons_True by (apply Hall; left).
  f_equal. apply IH. intros y Hy. apply Hall. by right.
Qed.

(** Against the zero-value collection every scraped job is new. *)
Lemma compare_with_empty (current : JobCollection) :
  Diff.compareScrapeResults emptyJobCollection current
  = mkDiffResult (CompanyName current) (SourceURL current)
      (Jobs current) [] [].
Proof.
  rewrite DiffFacts.compareScrapeResults_eq. simpl.
  rewrite filter_all; [|done].
  f_equal. apply DiffTheorems.filter_none. intros job _ Hupdated.
  unfold Diff.updatedIn, Diff.indexJobs in Hupdated. simpl in Hupdated.
  by rewrite lookup_empty in Hupdated.
Qed.

(** The first pass over a URL, on the in-memory repository: the lookup
    succeeds with the zero-value collection, so a scraped collection
    with at least one job is reported in full to NotifyNewJobs before it
    is saved. *)
Lemma first_observation_of_jobs_notifies (url : string)
    (w : World S N (gmap string JobCollection))
    (current : JobCollection) (s' : S) :
  repository w !! url = None →
  Scrape url (scraper w) = ((current, None), s') →
  Jobs current ≠ [] →
  let r := processSingleURL url w in
  notifications (trace (snd r))
  = notifications (trace w)
    ++ [mkDiffResult (CompanyName current) (SourceURL current)
          (Jobs current) [] []]
  ∧ saves (trace (snd r)) = saves (trace w) ++ [current].
Proof.
  destruct w as [s n r t]. simpl. intros Hmissing Hscrape Hjobs. run.
  rewrite Hscrape. run.
  change (GetLatestJobCollection url r)
    with (MemoryRepository.GetLatestJobCollection url r).
  unfold MemoryRepository.GetLatestJobCollection. rewrite Hmissing. run.
  rewrite compare_with_empty. unfold hasChanges. simpl NewJobs.
  destruct (Jobs current) as [|job rest] eqn:Hcur; [done|]. simpl. run.
  destruct (NotifyNewJobs _ n) as [[e|] n']; run; traces.
Qed.

(** The first pass is silent only when nothing was scraped. *)
Lemma first_observation_of_nothing_is_silent (url : string)
    (w : World S N (gmap string JobCollection))
    (current : JobCollection) (s' : S) :
  repository w !! url = None →
  Scrape url (scraper w) = ((current, None), s') →
  Jobs current = [] →
  let r := processSingleURL url w in
  notifications (trace (snd r)) = notifications (trace w)
  ∧ saves (trace (snd r)) = saves (trace w) ++ [current].
Proof.
  destruct w as [s n r t]. simpl. intros Hmissing Hscrape Hjobs. run.
  rewrite Hscrape. run.
  change (GetLatestJobCollection url r)
    with (MemoryRepository.GetLatestJobCollection url r).
  unfold MemoryRepository.GetLatestJobCollection. rewrite Hmissing. run.
  rewrite compare_with_empty, Hjobs. unfold hasChanges. simpl. run. traces.
Qed.

End InMemory.

(** *** Runs against the stand-ins *)

(** C1 fails on the program: the repository holds nothing for the URL,
    the scraper finds one job, and the pass calls NotifyNewJobs with that
    job as new before it saves the collection. *)
Theorem first_observation_notifies :
  let w :=
    Doubles.world [Doubles.snapshot Doubles.acme [Doubles.engineer]]
      false [] in
  let r := processSingleURL Doubles.acme w in
  repository w !! Doubles.acme = None
  ∧ fst r = None
  ∧ notifications (trace (snd r))
    = [mkDiffResult "Acme" Doubles.acme [Doubles.engineer] [] []]
  ∧ saves (trace (snd r))
    = [Doubles.snapshot Doubles.acme [Doubles.engineer]]
  ∧ Doubles.delivered (notifier (snd r))
    = [mkDiffResult "Acme" Doubles.acme [Doubles.engineer] [] []].
Proof. vm_compute. repeat split. Qed.

(** [scrape_failure_mutates_nothing] on a scraper that cannot reach the
    page, with a snapshot already stored. *)
Lemma scrape_failure_mutates_nothing_witness :
  let w :=
    Doubles.world [] false
      [Doubles.snapshot Doubles.acme [Doubles.engineer]] in
  let r := processSingleURL Doubles.acme w in
  saves (trace (snd r)) = []
  ∧ notifications (trace (snd r)) = []
  ∧ repository (snd r) = repository w.
Proof.
  pose proof (scrape_failure_mutates_nothing Doubles.acme
    (Doubles.world [] false
       [Doubles.snapshot Doubles.acme [Doubles.engineer]])
    "navigation failed" eq_refl) as (_ & _ & Hsaves & Hnotes & Hrepo & _).
  exact (conj Hsaves (conj Hnotes Hrepo)).
Defined.

(** [notify_failure_still_saves] on a notifier that refuses the diff of a
    retitled job. *)
Lemma notify_failure_still_saves_witness :
  let w :=
    Doubles.world [Doubles.snapshot Doubles.acme [Doubles.seniorEngineer]]
      true [Doubles.snapshot Doubles.acme [Doubles.engineer]] in
  saves (trace (snd (processSingleURL Doubles.acme w)))
  = [Doubles.snapshot Doubles.acme [Doubles.seniorEngineer]].
Proof.
  refine (proj1 (proj2
    (notify_failure_still_saves Doubles.acme
       (Doubles.world
          [Doubles.snapshot Doubles.acme [Doubles.seniorEngineer]] true
          [Doubles.snapshot Doubles.acme [Doubles.engineer]])
       (Doubles.snapshot Doubles.acme [Doubles.seniorEngineer])
       (Doubles.snapshot Doubles.acme [Doubles.engineer])
       _ _ _ "webhook returned 500" _ _ _ _))).
  - vm_compute. reflexivity.
  - vm_compute. reflexivity.
  - vm_compute. reflexivity.
  - vm_compute. reflexivity.
Defined.

(** The isolation example of the specification: the first source cannot
    be scraped, the second one is processed in full. *)
Example second_source_is_processed :
  let w :=
    Doubles.world [Doubles.snapshot Doubles.globex [Doubles.engineer]]
      false [Doubles.snapshot Doubles.globex []] in
  let r := ScrapeAndNotify [Doubles.acme; Doubles.globex] w in
  fst r = None
  ∧ scrapes (trace (snd r)) = [Doubles.acme; Doubles.globex]
  ∧ notifications (trace (snd r))
    = [mkDiffResult "Acme" Doubles.globex [Doubles.engineer] [] []]
  ∧ saves (trace (snd r))
    = [Doubles.snapshot Doubles.globex [Doubles.engineer]].
Proof. vm_compute. repeat split. Qed.

End ServiceTheorems.

(** ** More on the diff *)

Module DiffMore.
Import Diff DiffFacts.

Lemma filter_exclusive_length {A} (P Q : A → Prop)
    `{!∀ x, Decision (P x), !∀ x, Decision (Q x)} (l : list A) :
  (∀ x, P x → ¬ Q x) →
  (length (filter P l) + length (filter Q l) ≤ length l)%nat.
Proof.
  intros Hexcl. induction l as [|x rest IH]; [done|].
  rewrite !filter_cons.
  destruct (decide (P x)) as [HP|HP]; destruct (decide (Q x)) as [HQ|HQ];
    simpl; try lia.
  by destruct (Hexcl x HP).
Qed.

(** The result lists keep the order of the snapshots they are taken
    from: NewJobs and UpdatedJobs are sublists of current.Jobs, with at
    most one entry per current job between them, and RemovedJobs is a
    sublist of previous.Jobs. *)
Theorem diff_lists_are_sublists (previous current : JobCollection) :
  let diff := compareScrapeResults previous current in
  NewJobs diff `sublist_of` Jobs current
  ∧ UpdatedJobs diff `sublist_of` Jobs current
  ∧ RemovedJobs diff `sublist_of` Jobs previous
  ∧ (length (NewJobs diff) + length (UpdatedJobs diff)
     ≤ length (Jobs current))%nat.
Proof.
  intros diff. subst diff. rewrite compareScrapeResults_eq. simpl.
  repeat split; try apply sublist_filter.
  apply filter_exclusive_length. apply newIn_not_updatedIn.
Qed.

(** What is new from a to b is what is removed from b to a, entry by
    entry. *)
Theorem new_is_removed_backwards (a b : JobCollection) :
  NewJobs (compareScrapeResults a b) = RemovedJobs (compareScrapeResults b a).
Proof. rewrite !compareScrapeResults_eq. simpl. by apply list_filter_iff. Qed.

(** Against a snapshot without jobs: when the previous snapshot has no
    jobs, all current jobs are new and nothing else is reported; when the
    current one has none, all previous jobs are removed and nothing else
    is reported. *)
Theorem compare_with_no_jobs (previous current : JobCollection) :
  (Jobs previous = [] →
   NewJobs (compareScrapeResults previous current) = Jobs current
   ∧ UpdatedJobs (compareScrapeResults previous current) = []
   ∧ RemovedJobs (compareScrapeResults previous current) = [])
  ∧ (Jobs current = [] →
     NewJobs (compareScrapeResults previous current) = []
     ∧ UpdatedJobs (compareScrapeResults previous current) = []
     ∧ RemovedJobs (compareScrapeResults previous current) = Jobs previous).
Proof.
  rewrite compareScrapeResults_eq. simpl. split; intros Hnone; rewrite Hnone.
  - split; [|split; [|done]].
    + apply ServiceTheorems.filter_all. intros job _. apply lookup_empty.
    + apply DiffTheorems.filter_none. intros job _ Hupdated.
      unfold updatedIn, indexJobs in Hupdated. simpl in Hupdated.
      by rewrite lookup_empty in Hupdated.
  - split; [done|]. split; [done|].
    apply ServiceTheorems.filter_all. intros job _. apply lookup_empty.
Qed.

(** When the ids of the previous snapshot are distinct, every current job
    has a previous job with the same id, title, description, location
    and department, and every previous id is still listed, the diff is
    empty: URLs, dates, the order of the jobs and the other fields of the
    collections do not matter. *)
Lemma same_content_lists_empty (previous current : JobCollection) :
  NoDup (ids (Jobs previous)) →
  (∀ job, job ∈ Jobs current →
     ∃ prevJob, prevJob ∈ Jobs previous ∧ compared prevJob = compared job) →
  (∀ prevJob, prevJob ∈ Jobs previous → ID prevJob ∈ ids (Jobs current)) →
  NewJobs (compareScrapeResults previous current) = []
  ∧ UpdatedJobs (compareScrapeResults previous current) = []
  ∧ RemovedJobs (compareScrapeResults previous current) = [].
Proof.
  intros Hnd Hsame Hkept. rewrite compareScrapeResults_eq. simpl.
  split; [|split]; apply DiffTheorems.filter_none.
  - intros job Hin Hnew. destruct (Hsame job Hin) as (p & Hp & Hcmp).
    injection Hcmp as Hid _ _ _ _. unfold newIn in Hnew.
    rewrite indexJobs_lookup, <- Hid, versionOf_NoDup in Hnew; done.
  - intros job Hin Hupd. destruct (Hsame job Hin) as (p & Hp & Hcmp).
    injection Hcmp as Hid Ht Hd Hl Hdep. unfold updatedIn in Hupd.
    rewrite indexJobs_lookup, <- Hid, versionOf_NoDup in Hupd by done.
    unfold contentDiffers in Hupd. rewrite Ht, Hd, Hl, Hdep in Hupd.
    rewrite !bool_decide_eq_false_2 in Hupd by tauto. done.
  - intros p Hp Hrem. unfold removedIn in Hrem.
    apply DiffTheorems.indexJobs_None in Hrem. by apply Hrem, Hkept.
Qed.

Theorem same_content_gives_empty_diff (previous current : JobCollection) :
  NoDup (ids (Jobs previous)) →
  (∀ job, job ∈ Jobs current →
     ∃ prevJob, prevJob ∈ Jobs previous ∧ compared prevJob = compared job) →
  (∀ prevJob, prevJob ∈ Jobs previous → ID prevJob ∈ ids (Jobs current)) →
  compareScrapeResults previous current
  = mkDiffResult (CompanyName current) (SourceURL current) [] [] [].
Proof.
  intros Hnd Hsame Hkept.
  destruct (same_content_lists_empty previous current Hnd Hsame Hkept)
    as (Hnew & Hupd & Hrem).
  rewrite compareScrapeResults_eq in *. simpl in *.
  by rewrite Hnew, Hupd, Hrem.
Qed.

End DiffMore.

(** ** More on the in-memory repository and on the service *)

Module ServiceMore.
Import ServiceTheorems.

#[local] Hint Rewrite scrapes_app notifications_app saves_app
  lookupFailures_app : trace.
#[local] Hint Rewrite <- app_assoc : trace.
#[local] Hint Rewrite app_nil_r : trace.

(** Saves to one URL overwrite each other, so the last one counts; saves
    to different URLs can be made in either order. *)
Theorem saves_overwrite_and_commute
    (collections : gmap string JobCollection) (c1 c2 : JobCollection) :
  (SourceURL c1 = SourceURL c2 →
   snd (MemoryRepository.SaveJobCollection c2
          (snd (MemoryRepository.SaveJobCollection c1 collections)))
   = snd (MemoryRepository.SaveJobCollection c2 collections))
  ∧ (SourceURL c1 ≠ SourceURL c2 →
     snd (MemoryRepository.SaveJobCollection c2
            (snd (MemoryRepository.SaveJobCollection c1 collections)))
     = snd (MemoryRepository.SaveJobCollection c1
              (snd (MemoryRepository.SaveJobCollection c2 collections)))).
Proof.
  simpl. split.
  - intros ->. apply insert_insert_eq.
  - intros Hne. by apply insert_insert_ne.
Qed.

Section Generic.
Context {S N R : Type}.
Context `{!Scraper S, !Notifier N, !JobRepository R}.

Ltac branches :=
  repeat match goal with
  | |- context [Scrape ?url ?s] =>
      destruct (Scrape url s) as [[? [?|]] ?]; run
  | |- context [GetLatestJobCollection ?url ?r] =>
      destruct (GetLatestJobCollection url r) as [[? [?|]] ?]; run
  | |- context [hasChanges ?diff] => destruct (hasChanges diff); run
  | |- context [NotifyNewJobs ?diff ?n] =>
      destruct (NotifyNewJobs diff n) as [[?|] ?]; run
  | |- context [SaveJobCollection ?c ?r] =>
      destruct (SaveJobCollection c r) as [[?|] ?]; run
  end.

(** Name the calls that a branch of a run added. *)
Ltac count_calls :=
  let finish :=
    simpl; autorewrite with trace; simpl; repeat split;
    first [ done | simpl; lia ] in
  first [ solve [exists [], []; finish]
        | solve [eexists [], [_]; finish]
        | solve [eexists [_], [_]; finish] ].

(** A pass that finds nothing changed: the lookup succeeded and the diff
    is empty, so NotifyNewJobs is not called and the notifier is left
    alone; the scraped collection is saved all the same, and the error of
    the save, wrapped, is the result. *)
Theorem unchanged_pass_is_silent (url : string) (w : World S N R)
    (current previous : JobCollection) (s' : S) (r' : R) :
  Scrape url (scraper w) = ((current, None), s') →
  GetLatestJobCollection url (repository w) = ((previous, None), r') →
  hasChanges (Diff.compareScrapeResults previous current) = false →
  let r := processSingleURL url w in
  notifications (trace (snd r)) = notifications (trace w)
  ∧ notifier (snd r) = notifier w
  ∧ saves (trace (snd r)) = saves (trace w) ++ [current]
  ∧ repository (snd r) = snd (SaveJobCollection current r')
  ∧ fst r = match fst (SaveJobCollection current r') with
            | Some e => Some ("failed to save job collection: " +:+ e)
            | None => None
            end.
Proof.
  destruct w as [s n r t]. simpl. intros Hscrape Hlookup Hsame. run.
  rewrite Hscrape. run. rewrite Hlookup. run. rewrite Hsame. run.
  destruct (SaveJobCollection current r') as [[e|] r'']; run; traces.
Qed.

(** A pass whose lookup fails: the scraped collection is saved without a
    diff and without a notification, and the result is the result of the
    save, not wrapped; the error of the lookup itself is only logged. *)
Theorem lookup_failure_saves_without_notifying (url : string)
    (w : World S N R) (current previous : JobCollection) (s' : S) (r' : R)
    (err : error) :
  Scrape url (scraper w) = ((current, None), s') →
  GetLatestJobCollection url (repository w) = ((previous, Some err), r') →
  let r := processSingleURL url w in
  notifications (trace (snd r)) = notifications (trace w)
  ∧ notifier (snd r) = notifier w
  ∧ saves (trace (snd r)) = saves (trace w) ++ [current]
  ∧ repository (snd r) = snd (SaveJobCollection current r')
  ∧ fst r = fst (SaveJobCollection current r').
Proof.
  destruct w as [s n r t]. simpl. intros Hscrape Hlookup. run.
  rewrite Hscrape. run. rewrite Hlookup. run.
  destruct (SaveJobCollection current r') as [[e|] r'']; run; traces.
Qed.

(** What one run of processSingleURL adds to the calls. *)
Lemma processSingleURL_appends (url : string) (w : World S N R) :
  ∃ ns ss,
    notifications (trace (snd (processSingleURL url w)))
    = notifications (trace w) ++ ns
    ∧ saves (trace (snd (processSingleURL url w))) = saves (trace w) ++ ss
    ∧ (length ns ≤ length ss)%nat ∧ (length ss ≤ 1)%nat.
Proof.
  destruct w as [s n r t]. run.
  branches; count_calls.
Qed.

(** One run of processSingleURL calls SaveJobCollection at most once and
    NotifyNewJobs at most once, and never NotifyNewJobs without
    SaveJobCollection; it saves exactly when Scrape returned no error. *)
Theorem one_run_saves_once_at_most (url : string) (w : World S N R) :
  ∃ ns ss,
    notifications (trace (snd (processSingleURL url w)))
    = notifications (trace w) ++ ns
    ∧ saves (trace (snd (processSingleURL url w))) = saves (trace w) ++ ss
    ∧ (length ns ≤ length ss)%nat ∧ (length ss ≤ 1)%nat
    ∧ (ss = [] ↔ is_Some (snd (fst (Scrape url (scraper w))))).
Proof.
  destruct w as [s n r t]. run. simpl.
  destruct (Scrape url s) as [[current [e|]] s']; run; simpl.
  - exists [], []. simpl. autorewrite with trace. simpl.
    repeat split; eauto.
  - assert (∀ c : JobCollection, [c] = [] ↔ is_Some (@None error)) as Hiff.
    { intros c. split; [done|]. by intros [? ?]. }
    branches;
      first [ solve [eexists [], [_]; simpl; autorewrite with trace; simpl;
                     repeat split; first [done | lia | apply Hiff]]
            | solve [eexists [_], [_]; simpl; autorewrite with trace; simpl;
                     repeat split; first [done | lia | apply Hiff]] ].
Qed.

(** A whole pass saves at most once per URL and never notifies more
    often than it saves. *)
Theorem pass_saves_once_per_url_at_most (urls : list string)
    (w : World S N R) :
  ∃ ns ss,
    notifications (trace (snd (ScrapeAndNotify urls w)))
    = notifications (trace w) ++ ns
    ∧ saves (trace (snd (ScrapeAndNotify urls w))) = saves (trace w) ++ ss
    ∧ (length ns ≤ length ss)%nat ∧ (length ss ≤ length urls)%nat.
Proof.
  assert (∀ (us : list string) (w0 : World S N R), ∃ ns ss,
    notifications (trace (snd (forEachURL us w0)))
    = notifications (trace w0) ++ ns
    ∧ saves (trace (snd (forEachURL us w0))) = saves (trace w0) ++ ss
    ∧ (length ns ≤ length ss)%nat ∧ (length ss ≤ length us)%nat) as Hloop.
  { induction us as [|url rest IH]; intros w0.
    - exists [], []. simpl. by rewrite !app_nil_r.
    - rewrite forEachURL_cons.
      destruct (IH (snd (forEachURL [url] w0)))
        as (ns2 & ss2 & Hn2 & Hs2 & Hle2 & Hlen2).
      rewrite Hn2, Hs2, forEachURL_one. cbv zeta.
      destruct (processSingleURL_appends url
                  (snd (logPrintf (LogProcessingURL url) w0)))
        as (ns1 & ss1 & Hn1 & Hs1 & Hle1 & Hlen1).
      exists (ns1 ++ ns2), (ss1 ++ ss2).
      destruct (processSingleURL url _) as [[err|] w1]; simpl in *;
        autorewrite with trace in *; simpl in *;
        autorewrite with trace in *;
        rewrite Hn1, Hs1, !length_app; autorewrite with trace;
        repeat split; try done; lia. }
  destruct (Hloop urls
    (mkWorld (scraper w) (notifier w) (repository w)
       (trace w ++ [Log (LogStartingJob (length urls))])))
    as (ns & ss & Hn & Hs & Hle & Hlen).
  exists ns, ss. unfold ScrapeAndNotify, bind, ret, logPrintf, emit.
  destruct (forEachURL urls _) as [[] w']. simpl in *.
  autorewrite with trace in *. simpl in *. autorewrite with trace in *.
  by rewrite Hn, Hs.
Qed.

End Generic.

Section InMemory.
Context {S N : Type}.
Context `{!Scraper S, !Notifier N}.

Ltac memory_branches :=
  repeat match goal with
  | |- context [GetLatestJobCollection ?url ?r] =>
      change (GetLatestJobCollection url r)
        with (MemoryRepository.GetLatestJobCollection url r);
      unfold MemoryRepository.GetLatestJobCollection;
      destruct (r !! url); run
  | |- context [hasChanges ?diff] => destruct (hasChanges diff); run
  | |- context [NotifyNewJobs ?diff ?n] =>
      destruct (NotifyNewJobs diff n) as [[?|] ?]; run
  | |- context [SaveJobCollection ?c ?r] =>
      change (SaveJobCollection c r)
        with (MemoryRepository.SaveJobCollection c r);
      unfold MemoryRepository.SaveJobCollection; run
  end.

(** On the in-memory repository the only error of processSingleURL is
    the error of Scrape, wrapped: a failed notification is not
    reported to the caller. *)
Theorem memory_run_fails_only_on_scrape (url : string)
    (w : World S N (gmap string JobCollection)) :
  fst (processSingleURL url w)
  = match snd (fst (Scrape url (scraper w))) with
    | Some err => Some ("failed to scrape URL " +:+ url +:+ ": " +:+ err)
    | None => None
    end.
Proof.
  destruct w as [s n r t]. run.
  destruct (Scrape url s) as [[current [e|]] s']; run; [done|].
  memory_branches; done.
Qed.

(** On the in-memory repository, a run whose Scrape succeeds leaves the
    scraped collection stored under the SourceURL of the collection
    (not under the URL that was asked for, should they differ) and
    every other entry as it was. *)
Theorem memory_run_stores_current (url : string)
    (w : World S N (gmap string JobCollection))
    (current : JobCollection) (s' : S) :
  Scrape url (scraper w) = ((current, None), s') →
  repository (snd (processSingleURL url w))
  = <[SourceURL current := current]> (repository w).
Proof.
  destruct w as [s n r t]. simpl. intros Hscrape. run.
  rewrite Hscrape. run. memory_branches; done.
Qed.

(** A second look at an unchanged page is silent: when the repository
    holds a snapshot with distinct ids for the URL and the scraped jobs
    are the stored ones up to order, URLs and dates, NotifyNewJobs is
    not called and the scraped collection replaces the stored one. *)
Theorem unchanged_page_is_silent (url : string)
    (w : World S N (gmap string JobCollection))
    (current previous : JobCollection) (s' : S) :
  repository w !! url = Some previous →
  Scrape url (scraper w) = ((current, None), s') →
  NoDup (Diff.ids (Jobs previous)) →
  (∀ job, job ∈ Jobs current →
     ∃ prevJob, prevJob ∈ Jobs previous ∧ compared prevJob = compared job) →
  (∀ prevJob, prevJob ∈ Jobs previous →
     ID prevJob ∈ Diff.ids (Jobs current)) →
  let r := processSingleURL url w in
  fst r = None
  ∧ notifications (trace (snd r)) = notifications (trace w)
  ∧ notifier (snd r) = notifier w
  ∧ saves (trace (snd r)) = saves (trace w) ++ [current]
  ∧ repository (snd r) = <[SourceURL current := current]> (repository w).
Proof.
  destruct w as [s n r t]. simpl.
  intros Hstored Hscrape Hnd Hsame Hkept. run. rewrite Hscrape. run.
  change (GetLatestJobCollection url r)
    with (MemoryRepository.GetLatestJobCollection url r).
  unfold MemoryRepository.GetLatestJobCollection. rewrite Hstored. run.
  destruct (DiffMore.same_content_lists_empty previous current
              Hnd Hsame Hkept) as (Hnew & Hupd & Hrem).
  unfold hasChanges. rewrite Hnew, Hupd, Hrem. simpl. run. traces.
Qed.

End InMemory.

(** *** Runs against the stand-ins *)

(** [same_content_gives_empty_diff] on a job seen again at another
    address and time. *)
Lemma same_content_gives_empty_diff_witness :
  Diff.compareScrapeResults
    (Doubles.snapshot Doubles.acme [Doubles.engineer])
    (Doubles.snapshot Doubles.acme [MoreDoubles.engineerMoved])
  = mkDiffResult "Acme" Doubles.acme [] [] [].
Proof.
  apply (DiffMore.same_content_gives_empty_diff
           (Doubles.snapshot Doubles.acme [Doubles.engineer])
           (Doubles.snapshot Doubles.acme [MoreDoubles.engineerMoved])).
  - simpl. apply NoDup_singleton.
  - intros job Hin. apply list_elem_of_singleton in Hin as ->.
    exists Doubles.engineer. split; [by left | reflexivity].
  - intros prevJob Hin. apply list_elem_of_singleton in Hin as ->.
    by left.
Defined.

(** [unchanged_pass_is_silent] on a page stored as it is served. *)
Lemma unchanged_pass_is_silent_witness :
  let w :=
    Doubles.world [Doubles.snapshot Doubles.acme [Doubles.engineer]] false
      [Doubles.snapshot Doubles.acme [Doubles.engineer]] in
  notifications (trace (snd (processSingleURL Doubles.acme w))) = []
  ∧ saves (trace (snd (processSingleURL Doubles.acme w)))
    = [Doubles.snapshot Doubles.acme [Doubles.engineer]].
Proof.
  pose proof (unchanged_pass_is_silent Doubles.acme
    (Doubles.world [Doubles.snapshot Doubles.acme [Doubles.engineer]] false
       [Doubles.snapshot Doubles.acme [Doubles.engineer]])
    (Doubles.snapshot Doubles.acme [Doubles.engineer])
    (Doubles.snapshot Doubles.acme [Doubles.engineer]) _ _
    eq_refl eq_refl eq_refl) as (Hnotes & _ & Hsaves & _).
  exact (conj Hnotes Hsaves).
Defined.

(** [lookup_failure_saves_without_notifying] on the repository that
    cannot be read. *)
Lemma lookup_failure_saves_without_notifying_witness :
  let w :=
    MoreDoubles.offlineWorld
      [Doubles.snapshot Doubles.acme [Doubles.engineer]] in
  notifications (trace (snd (processSingleURL Doubles.acme w))) = []
  ∧ MoreDoubles.kept (repository (snd (processSingleURL Doubles.acme w)))
    = [Doubles.snapshot Doubles.acme [Doubles.engineer]].
Proof.
  pose proof (lookup_failure_saves_without_notifying Doubles.acme
    (MoreDoubles.offlineWorld
       [Doubles.snapshot Doubles.acme [Doubles.engineer]])
    (Doubles.snapshot Doubles.acme [Doubles.engineer])
    emptyJobCollection _ _ "connection refused"
    eq_refl eq_refl) as (Hnotes & _ & _ & Hrepo & _).
  split; [exact Hnotes|]. rewrite Hrepo. reflexivity.
Defined.

(** [memory_run_stores_current] on a first scrape. *)
Lemma memory_run_stores_current_witness :
  let w :=
    Doubles.world [Doubles.snapshot Doubles.acme [Doubles.engineer]]
      false [] in
  repository (snd (processSingleURL Doubles.acme w)) !! Doubles.acme
  = Some (Doubles.snapshot Doubles.acme [Doubles.engineer]).
Proof.
  cbv zeta.
  rewrite (memory_run_stores_current Doubles.acme
    (Doubles.world [Doubles.snapshot Doubles.acme [Doubles.engineer]]
       false [])
    (Doubles.snapshot Doubles.acme [Doubles.engineer]) _ eq_refl).
  apply lookup_insert_eq.
Defined.

(** [unchanged_page_is_silent] on a job seen again at another address
    and time. *)
Lemma unchanged_page_is_silent_witness :
  let w :=
    Doubles.world [Doubles.snapshot Doubles.acme [MoreDoubles.engineerMoved]]
      false [Doubles.snapshot Doubles.acme [Doubles.engineer]] in
  notifications (trace (snd (processSingleURL Doubles.acme w))) = [].
Proof.
  refine (proj1 (proj2
    (unchanged_page_is_silent Doubles.acme
       (Doubles.world
          [Doubles.snapshot Doubles.acme [MoreDoubles.engineerMoved]]
          false [Doubles.snapshot Doubles.acme [Doubles.engineer]])
       (Doubles.snapshot Doubles.acme [MoreDoubles.engineerMoved])
       (Doubles.snapshot Doubles.acme [Doubles.engineer]) _
       eq_refl eq_refl _ _ _))).
  - simpl. apply NoDup_singleton.
  - intros job Hin. apply list_elem_of_singleton in Hin as ->.
    exists Doubles.engineer. split; [by left | reflexivity].
  - intros prevJob Hin. apply list_elem_of_singleton in Hin as ->.
    by left.
Defined.

End ServiceMore.

(** ** The Discord notifier *)

Module DiscordTheorems.
Import GoStrings Discord.

Lemma length_append (a b : string) :
  String.length (a +:+ b) = (String.length a + String.length b)%nat.
Proof. induction a as [|c a IH]; simpl; [done|]. by rewrite IH. Qed.

Lemma length_takeBytes (n : nat) (s : string) :
  String.length (takeBytes n s) = (n `min` String.length s)%nat.
Proof.
  revert s. induction n as [|n IH]; intros [|c s]; simpl; try done.
  by rewrite IH.
Qed.

Lemma takeBytes_append (a b : string) :
  takeBytes (String.length a) (a +:+ b) = a.
Proof. induction a as [|c a IH]; simpl; [by destruct b|]. by rewrite IH. Qed.

Lemma takeBytes_append_cut (n : nat) (a b : string) :
  String.length a = n → takeBytes n (a +:+ b) = a.
Proof. intros <-. apply takeBytes_append. Qed.

Section Notifier.
Context {H : Type} `{!Outside H}.

(** The skip of NotifyNewJobs: for a diff with three empty lists it
    returns nil and leaves the notifier as it is: no payload is built and
    nothing is handed to the client. *)
Theorem notify_empty_diff_sends_nothing (diff : DiffResult)
    (n : DiscordNotifier H) :
  NewJobs diff = [] → UpdatedJobs diff = [] → RemovedJobs diff = [] →
  NotifyNewJobs diff n = (None, n).
Proof. intros Hnew Hupd Hrem. unfold NotifyNewJobs. by rewrite Hnew, Hupd, Hrem. Qed.

Lemma notify_changes (diff : DiffResult) (n : DiscordNotifier H) :
  hasChanges diff = true →
  NotifyNewJobs diff n
  = sendWebhook (buildPayload (timeNowRFC1123 (client n)) diff) n.
Proof.
  unfold NotifyNewJobs, hasChanges.
  destruct (NewJobs diff), (UpdatedJobs diff), (RemovedJobs diff); done.
Qed.

Lemma sendWebhook_posts (payload : DiscordWebhookPayload)
    (n : DiscordNotifier H) (body : string) :
  jsonMarshal payload = (body, None) →
  newRequestError (webhookURL n) = None →
  sendWebhook payload n
  = let req :=
      mkRequest "POST" (webhookURL n) body
        (<["Content-Type" := ["application/json"]]> ∅) in
    let answer := clientDo req (client n) in
    let n' :=
      mkDiscordNotifier (webhookURL n) (snd answer) (posted n ++ [req]) in
    (match snd (fst answer) with
     | Some err => Some ("failed to send Discord webhook: " +:+ err)
     | None =>
         if bool_decide (fst (fst answer) < 200 ∨ 300 ≤ fst (fst answer))%Z
         then Some ("Discord webhook returned non-success status: "
                    +:+ pretty (fst (fst answer)))
         else None
     end, n').
Proof.
  intros Hbody Hurl. unfold sendWebhook. rewrite Hbody, Hurl. cbv zeta.
  destruct (clientDo _ (client n)) as [[status [err|]] h']; simpl; [done|].
  by case_bool_decide.
Qed.

(** A diff with a change, a payload that can be marshalled and a URL a
    request can be made for: NotifyNewJobs hands exactly one request to
    the client, a POST to the webhook URL with the marshalled payload as
    body and the JSON content type, and it returns nil exactly when the
    client returned no error and a status from 200 to 299. *)
Theorem notify_posts_once (diff : DiffResult) (n : DiscordNotifier H)
    (body : string) (status : Z) (err : option error) (h' : H) :
  hasChanges diff = true →
  jsonMarshal (buildPayload (timeNowRFC1123 (client n)) diff)
  = (body, None) →
  newRequestError (webhookURL n) = None →
  clientDo (mkRequest "POST" (webhookURL n) body
              (<["Content-Type" := ["application/json"]]> ∅)) (client n)
  = ((status, err), h') →
  let r := NotifyNewJobs diff n in
  posted (snd r)
  = posted n
    ++ [mkRequest "POST" (webhookURL n) body
          (<["Content-Type" := ["application/json"]]> ∅)]
  ∧ client (snd r) = h'
  ∧ webhookURL (snd r) = webhookURL n
  ∧ (fst r = None ↔ err = None ∧ (200 ≤ status < 300)%Z).
Proof.
  intros Hchanged Hbody Hurl Hdo. cbv zeta.
  rewrite (notify_changes diff n Hchanged).
  rewrite (sendWebhook_posts _ n body Hbody Hurl). cbv zeta.
  rewrite Hdo. simpl. split; [done|]. split; [done|]. split; [done|].
  destruct err as [e|].
  - split; [done|]. by intros [? _].
  - case_bool_decide as Hstatus.
    + split; [done|]. intros [_ ?]. lia.
    + split; [|done]. intros _. split; [done|lia].
Qed.

(** When the payload cannot be marshalled or no request can be made for
    the webhook URL, NotifyNewJobs on a diff with a change returns an
    error and hands nothing to the client. *)
Theorem notify_unsendable_posts_nothing (diff : DiffResult)
    (n : DiscordNotifier H) :
  hasChanges diff = true →
  is_Some (snd (jsonMarshal (buildPayload (timeNowRFC1123 (client n)) diff)))
  ∨ is_Some (newRequestError (webhookURL n)) →
  is_Some (fst (NotifyNewJobs diff n)) ∧ snd (NotifyNewJobs diff n) = n.
Proof.
  intros Hchanged Hbad. rewrite (notify_changes diff n Hchanged).
  unfold sendWebhook.
  destruct (jsonMarshal _) as [body [merr|]]; simpl in *; [by eauto|].
  destruct Hbad as [[? ?]|[uerr Huerr]]; [done|]. rewrite Huerr. by eauto.
Qed.

Lemma length_newJobFields (jobs : list Job) :
  length (concat (map newJobFields jobs))
  = (length jobs + length (filter (fun job => Description job ≠ "") jobs))%nat.
Proof.
  induction jobs as [|job rest IH]; [done|].
  simpl. rewrite length_app, IH, filter_cons. unfold newJobFields.
  destruct (decide (Description job ≠ "")) as [Hdesc|Hdesc].
  - rewrite (bool_decide_eq_true_2 _ Hdesc). simpl. lia.
  - rewrite (bool_decide_eq_false_2 _ Hdesc). simpl. lia.
Qed.

(** The embeds of a payload: the blue embed of the source without
    fields, then one embed for each list of the diff that is not empty,
    in the order new (green), updated (yellow), removed (red); the embed
    of the new jobs has one field per job and one more per job with a
    description, the other two have one field per job. *)
Theorem payload_embeds (now : string) (diff : DiffResult) :
  map (fun e => (Color e, length (Fields e)))
    (Embeds (buildPayload now diff))
  = (3447003%Z, 0%nat)
    :: (if decide (NewJobs diff = []) then []
        else [(5763719%Z,
               (length (NewJobs diff)
                + length (filter (fun job => Description job ≠ "")
                            (NewJobs diff)))%nat)])
    ++ (if decide (UpdatedJobs diff = []) then []
        else [(16776960%Z, length (UpdatedJobs diff))])
    ++ (if decide (RemovedJobs diff = []) then []
        else [(15158332%Z, length (RemovedJobs diff))]).
Proof.
  unfold buildPayload. cbv zeta.
  pose proof (length_newJobFields (NewJobs diff)) as Hfields.
  destruct (NewJobs diff) as [|new news];
    destruct (UpdatedJobs diff) as [|upd upds];
    destruct (RemovedJobs diff) as [|rem rems];
    simpl in *; rewrite ?length_map, ?Hfields; reflexivity.
Qed.

(** The fields of a new job: the field of the job, named by its title,
    and, when the job has a description, a field named Description whose
    value is the description if that has at most 200 bytes, and otherwise
    its first 197 bytes followed by three dots, 200 bytes in all. *)
Theorem new_job_description_is_cut (job : Job) :
  (Description job = "" →
   ∃ field, newJobFields job = [field] ∧ Name field = Title job)
  ∧ (Description job ≠ "" →
     ∃ field value,
       newJobFields job = [field; mkField "Description" value false]
       ∧ Name field = Title job
       ∧ (String.length value ≤ 200)%nat
       ∧ takeBytes 197 value = takeBytes 197 (Description job)
       ∧ ((String.length (Description job) ≤ 200)%nat →
          value = Description job)
       ∧ ((200 < String.length (Description job))%nat →
          value = takeBytes 197 (Description job) +:+ "..."
          ∧ String.length value = 200%nat)).
Proof.
  unfold newJobFields. cbv zeta. split.
  - intros Hnone. rewrite Hnone. simpl. eauto.
  - intros Hdesc. rewrite (bool_decide_eq_true_2 _ Hdesc).
    destruct (decide (200 < String.length (Description job))%nat)
      as [Hlong|Hlong].
    + rewrite (bool_decide_eq_true_2 _ Hlong).
      eexists _, _. split; [reflexivity|]. split; [done|].
      assert (String.length (takeBytes 197 (Description job)) = 197%nat)
        as Hcut by (rewrite length_takeBytes; lia).
      assert (String.length (takeBytes 197 (Description job) +:+ "...")
              = 200%nat) as Hlen by (by rewrite length_append, Hcut).
      split; [lia|]. split; [|split; [lia|done]].
      by apply takeBytes_append_cut.
    + rewrite (bool_decide_eq_false_2 _ Hlong).
      eexists _, _. split; [reflexivity|]. split; [done|].
      split; [lia|]. split; [done|]. split; [done|lia].
Qed.

End Notifier.

(** *** Runs against the stand-in network *)

(** [notify_empty_diff_sends_nothing] on an empty diff. *)
Lemma notify_empty_diff_sends_nothing_witness :
  NotifyNewJobs (mkDiffResult "Acme" Doubles.acme [] [] [])
    (MoreDoubles.discordNotifier [(204%Z, None)])
  = (None, MoreDoubles.discordNotifier [(204%Z, None)]).
Proof.
  apply (notify_empty_diff_sends_nothing
           (mkDiffResult "Acme" Doubles.acme [] [] [])
           (MoreDoubles.discordNotifier [(204%Z, None)])); reflexivity.
Defined.

(** [notify_posts_once] on one new job and a network that answers 204. *)
Lemma notify_posts_once_witness :
  fst (NotifyNewJobs
         (mkDiffResult "Acme" Doubles.acme [Doubles.engineer] [] [])
         (MoreDoubles.discordNotifier [(204%Z, None)]))
  = None.
Proof.
  refine (proj2 (proj2 (proj2 (proj2
    (notify_posts_once
       (mkDiffResult "Acme" Doubles.acme [Doubles.engineer] [] [])
       (MoreDoubles.discordNotifier [(204%Z, None)])
       _ 204%Z None (MoreDoubles.mkNetwork []) _ _ _ _)))) _).
  - reflexivity.
  - vm_compute. reflexivity.
  - reflexivity.
  - reflexivity.
  - split; [reflexivity|lia].
Defined.

(** [notify_unsendable_posts_nothing] on a notifier whose URL ends in a
    line feed: no request can be made for it, and the network, ready to
    answer 204, is not asked. *)
Lemma notify_unsendable_posts_nothing_witness :
  is_Some (fst (NotifyNewJobs
                  (mkDiffResult "Acme" Doubles.acme [Doubles.engineer] [] [])
                  (mkDiscordNotifier MoreDoubles.hookWithLineFeed
                     (MoreDoubles.mkNetwork [(204%Z, None)]) [])))
  ∧ snd (NotifyNewJobs
           (mkDiffResult "Acme" Doubles.acme [Doubles.engineer] [] [])
           (mkDiscordNotifier MoreDoubles.hookWithLineFeed
              (MoreDoubles.mkNetwork [(204%Z, None)]) []))
    = mkDiscordNotifier MoreDoubles.hookWithLineFeed
        (MoreDoubles.mkNetwork [(204%Z, None)]) [].
Proof.
  refine (notify_unsendable_posts_nothing
            (mkDiffResult "Acme" Doubles.acme [Doubles.engineer] [] [])
            (mkDiscordNotifier MoreDoubles.hookWithLineFeed
               (MoreDoubles.mkNetwork [(204%Z, None)]) []) _ _).
  - reflexivity.
  - right. vm_compute. eauto.
Defined.

End DiscordTheorems.

(** ** The service on the Discord notifier *)

Module ServiceOnDiscord.
Import ServiceTheorems.

#[local] Hint Rewrite scrapes_app notifications_app saves_app
  lookupFailures_app : trace.
#[local] Hint Rewrite <- app_assoc : trace.
#[local] Hint Rewrite app_nil_r : trace.

Section OnDiscord.
Context {S R H : Type}.
Context `{!Scraper S, !JobRepository R, !Discord.Outside H}.

(** The service never meets the skip of the notifier: it calls
    NotifyNewJobs for diffs with a change only, so, when payloads can be
    marshalled and a request can be made for the webhook URL, each call
    of NotifyNewJobs in a run of processSingleURL hands one request to
    the client, and a run without a call hands none. *)
Theorem every_notification_is_one_post (url : string)
    (w : World S (Discord.DiscordNotifier H) R) :
  (∀ payload, snd (Discord.jsonMarshal payload) = None) →
  Discord.newRequestError (Discord.webhookURL (notifier w)) = None →
  let r := processSingleURL url w in
  ∃ ns rs,
    notifications (trace (snd r)) = notifications (trace w) ++ ns
    ∧ Discord.posted (notifier (snd r))
      = Discord.posted (notifier w) ++ rs
    ∧ length rs = length ns
    ∧ Discord.webhookURL (notifier (snd r))
      = Discord.webhookURL (notifier w).
Proof.
  destruct w as [s n r t]. simpl. intros Hmarshal Hurl. run.
  destruct (Scrape url s) as [[current [serr|]] s']; run.
  { exists [], []. traces. }
  destruct (GetLatestJobCollection url r) as [[previous [lerr|]] r']; run.
  { destruct (SaveJobCollection current r') as [[e|] r'']; run;
      exists [], []; traces. }
  destruct (hasChanges (Diff.compareScrapeResults previous current))
    eqn:Hchanged; run.
  - unfold NotifyNewJobs, Discord.discordNotifier.
    rewrite (DiscordTheorems.notify_changes _ n Hchanged).
    destruct (Discord.jsonMarshal
                (Discord.buildPayload (Discord.timeNowRFC1123
                                         (Discord.client n))
                   (Diff.compareScrapeResults previous current)))
      as [body merr] eqn:Hbody.
    pose proof (Hmarshal (Discord.buildPayload
                            (Discord.timeNowRFC1123 (Discord.client n))
                            (Diff.compareScrapeResults previous current)))
      as Hnone.
    rewrite Hbody in Hnone. simpl in Hnone. subst merr.
    rewrite (DiscordTheorems.sendWebhook_posts _ n body Hbody Hurl).
    cbv zeta.
    destruct (Discord.clientDo _ (Discord.client n))
      as [[status [derr|]] h']; simpl; run.
    + destruct (SaveJobCollection current r') as [[e|] r'']; run;
        eexists [_], [_]; traces.
    + case_bool_decide; run;
        destruct (SaveJobCollection current r') as [[e|] r'']; run;
        eexists [_], [_]; traces.
  - destruct (SaveJobCollection current r') as [[e|] r'']; run;
      exists [], []; traces.
Qed.

End OnDiscord.

(** [every_notification_is_one_post] on a retitled job and a network that
    answers 500. *)
Lemma every_notification_is_one_post_witness :
  let w :=
    MoreDoubles.discordWorld
      [Doubles.snapshot Doubles.acme [Doubles.seniorEngineer]]
      [(500%Z, None)]
      [Doubles.snapshot Doubles.acme [Doubles.engineer]] in
  ∃ ns rs,
    notifications (trace (snd (processSingleURL Doubles.acme w)))
    = notifications (trace w) ++ ns
    ∧ Discord.posted (notifier (snd (processSingleURL Doubles.acme w)))
      = Discord.posted (notifier w) ++ rs
    ∧ length rs = length ns
    ∧ Discord.webhookURL (notifier (snd (processSingleURL Doubles.acme w)))
      = Discord.webhookURL (notifier w).
Proof.
  apply (every_notification_is_one_post Doubles.acme
    (MoreDoubles.discordWorld
       [Doubles.snapshot Doubles.acme [Doubles.seniorEngineer]]
       [(500%Z, None)]
       [Doubles.snapshot Doubles.acme [Doubles.engineer]])).
  - intros payload. reflexivity.
  - reflexivity.
Defined.

(** A pass on the Discord notifier whose answer is 500: the error is
    logged, the snapshot is saved and the result is nil. *)
Example refused_webhook_is_not_reported :
  let w :=
    MoreDoubles.discordWorld
      [Doubles.snapshot Doubles.acme [Doubles.seniorEngineer]]
      [(500%Z, None)]
      [Doubles.snapshot Doubles.acme [Doubles.engineer]] in
  let r := processSingleURL Doubles.acme w in
  fst r = None
  ∧ length (Discord.posted (notifier (snd r))) = 1%nat
  ∧ saves (trace (snd r))
    = [Doubles.snapshot Doubles.acme [Doubles.seniorEngineer]]
  ∧ Log (LogNotificationFailed
           "Discord webhook returned non-success status: 500")
    ∈ trace (snd r).
Proof.
  vm_compute. repeat split. repeat (first [by left | right]).
Qed.

End ServiceOnDiscord.

(** ** Go strings, notifications, company names and the list of sources *)

Module SourcesTheorems.
Import GoStrings Sources Notifications.

Lemma contains_String (a c : Ascii.ascii) (s : string) :
  contains (String a s) c ↔ c = a ∨ contains s c.
Proof. unfold contains, bytes. simpl. apply elem_of_cons. Qed.

Lemma contains_empty (c : Ascii.ascii) : ¬ contains "" c.
Proof. unfold contains, bytes. simpl. apply not_elem_of_nil. Qed.

Lemma append_String (x : Ascii.ascii) (a b : string) :
  String x a +:+ b = String x (a +:+ b).
Proof. reflexivity. Qed.

Lemma append_empty (b : string) : "" +:+ b = b.
Proof. reflexivity. Qed.

Lemma contains_append (a b : string) (c : Ascii.ascii) :
  contains (a +:+ b) c ↔ contains a c ∨ contains b c.
Proof.
  induction a as [|x a IH].
  - rewrite append_empty. split; [by right|]. intros [Hempty|Hb]; [|done].
    by destruct (contains_empty c).
  - rewrite append_String, !contains_String, IH. tauto.
Qed.

Lemma Split_not_nil (s : string) (sep : Ascii.ascii) : Split s sep ≠ [].
Proof.
  destruct s as [|a s]; simpl; [done|].
  case_decide; [done|]. by destruct (Split s sep).
Qed.

(** No piece contains the separator, and a piece contains only bytes of
    the string. *)
Lemma Split_pieces (s : string) (sep : Ascii.ascii) (piece : string) :
  piece ∈ Split s sep →
  ¬ contains piece sep ∧ ∀ c, contains piece c → contains s c.
Proof.
  revert piece. induction s as [|a s IH]; intros piece; simpl.
  - intros Hin. apply list_elem_of_singleton in Hin as ->.
    split; [apply contains_empty|done].
  - case_decide as Hsep.
    + intros Hin. apply elem_of_cons in Hin as [->|Hin].
      * split; [apply contains_empty|]. intros c Hc.
        by destruct (contains_empty c).
      * destruct (IH piece Hin) as [Hno Hsub]. split; [done|].
        intros c Hc. apply contains_String. right. by apply Hsub.
    + pose proof (Split_not_nil s sep) as Hnil.
      destruct (Split s sep) as [|first rest]; [done|].
      intros Hin. apply elem_of_cons in Hin as [->|Hin].
      * destruct (IH first) as [Hno Hsub]; [by left|]. split.
        -- rewrite contains_String. intros [Heq|Hc]; [by destruct Hsep|done].
        -- intros c. rewrite !contains_String. intros [->|Hc]; [by left|].
           right. by apply Hsub.
      * destruct (IH piece) as [Hno Hsub]; [by right|]. split; [done|].
        intros c Hc. apply contains_String. right. by apply Hsub.
Qed.

(** Joining the pieces with the separator gives the string back. *)
Lemma Join_Split (s : string) (sep : Ascii.ascii) :
  Join (Split s sep) (String sep "") = s.
Proof.
  induction s as [|a s IH]; simpl; [done|].
  pose proof (Split_not_nil s sep) as Hnil.
  case_decide as Hsep.
  - subst a. destruct (Split s sep) as [|first rest] eqn:Hsplit; [done|].
    simpl in *. by rewrite IH.
  - destruct (Split s sep) as [|first rest] eqn:Hsplit; [done|].
    destruct rest as [|second rest]; simpl in *; by rewrite <- IH.
Qed.

(** A string without the separator is one piece. *)
Lemma Split_one (s : string) (sep : Ascii.ascii) :
  ¬ contains s sep → Split s sep = [s].
Proof.
  induction s as [|a s IH]; simpl; [done|].
  rewrite contains_String. intros Hno.
  rewrite decide_False by (intros ->; tauto).
  rewrite IH by tauto. done.
Qed.

(** A string without the separator, a separator, and more: the first
    piece is that string. *)
Lemma Split_append (a b : string) (sep : Ascii.ascii) :
  ¬ contains a sep →
  Split (a +:+ String sep b) sep = a :: Split b sep.
Proof.
  induction a as [|x a IH].
  - intros _. rewrite append_empty. simpl. by rewrite decide_True.
  - rewrite contains_String. intros Hno. rewrite append_String. simpl.
    rewrite decide_False by (intros ->; tauto).
    rewrite IH by tauto. done.
Qed.

(** Splitting what was joined gives the pieces back, when no piece
    contains the separator. *)
Lemma Split_Join (pieces : list string) (sep : Ascii.ascii) :
  pieces ≠ [] →
  (∀ piece, piece ∈ pieces → ¬ contains piece sep) →
  Split (Join pieces (String sep "")) sep = pieces.
Proof.
  induction pieces as [|first rest IH]; [done|]. intros _ Hno.
  destruct rest as [|second rest].
  - simpl. apply Split_one. apply Hno. by left.
  - change (Join (first :: second :: rest) (String sep ""))
      with (first +:+ String sep "" +:+ Join (second :: rest) (String sep "")).
    change (String sep "" +:+ Join (second :: rest) (String sep ""))
      with (String sep (Join (second :: rest) (String sep ""))).
    rewrite Split_append by (apply Hno; by left).
    rewrite IH; [done|done|]. intros piece Hin. apply Hno. by right.
Qed.

Lemma length_Split (s : string) (sep : Ascii.ascii) :
  length (Split s sep)
  = Datatypes.S (length (filter (fun b => b = sep) (bytes s))).
Proof.
  unfold bytes. induction s as [|a s IH]; simpl; [done|].
  pose proof (Split_not_nil s sep) as Hnil. rewrite filter_cons.
  case_decide as Hsep; simpl; [by rewrite IH|].
  destruct (Split s sep) as [|first rest]; [done|]. simpl in *. done.
Qed.

Lemma append_empty_r (a : string) : a +:+ "" = a.
Proof.
  induction a as [|x a IH]; [done|]. by rewrite append_String, IH.
Qed.

Lemma prefix_empty (s : string) : String.prefix "" s = true.
Proof. by destruct s. Qed.

Lemma prefix_append (p r : string) : String.prefix p (p +:+ r) = true.
Proof.
  induction p as [|x p IH]; [apply prefix_empty|].
  rewrite append_String. simpl. by destruct (Ascii.ascii_dec x x).
Qed.

Lemma prefix_true (p s : string) :
  String.prefix p s = true → ∃ r, s = p +:+ r.
Proof.
  revert p. induction s as [|b s IH]; intros p; simpl.
  - destruct p; [|done]. by exists "".
  - destruct p as [|a p]; [by exists (String b s)|].
    destruct (Ascii.ascii_dec a b); [|done]. subst b. intros Hp.
    destruct (IH p Hp) as [r ->]. by exists r.
Qed.

Lemma dropBytes_append (p r : string) :
  dropBytes (String.length p) (p +:+ r) = r.
Proof. induction p as [|x p IH]; [done|]. by rewrite append_String. Qed.

Lemma TrimPrefix_append (p r : string) : TrimPrefix (p +:+ r) p = r.
Proof.
  unfold TrimPrefix, HasPrefix. by rewrite prefix_append, dropBytes_append.
Qed.

Lemma TrimPrefix_other (s p : string) :
  String.prefix p s = false → TrimPrefix s p = s.
Proof. unfold TrimPrefix, HasPrefix. by intros ->. Qed.

(** A host, then nothing or a path: the first piece between slashes is
    the host. *)
Lemma first_piece_is_host (host path : string) :
  ¬ contains host "/" →
  path = "" ∨ (∃ p, path = String "/" p) →
  ∃ rest, Split (host +:+ path) "/" = host :: rest.
Proof.
  intros Hhost [->|[p ->]].
  - rewrite append_empty_r, Split_one by done. by exists [].
  - rewrite Split_append by done. eauto.
Qed.

(** Decide that a byte does not occur in a given string. *)
Ltac absent H :=
  unfold contains, bytes in H; simpl in H;
  repeat (apply elem_of_cons in H as [H|H]; [discriminate|]);
  by apply elem_of_nil in H.

(** A host with a dot and without a slash does not begin a URL with a
    scheme. *)
Lemma host_has_no_scheme (host path : string) :
  contains host "." → ¬ contains host "/" →
  path = "" ∨ (∃ p, path = String "/" p) →
  String.prefix "https://" (host +:+ path) = false
  ∧ String.prefix "http://" (host +:+ path) = false.
Proof.
  intros Hdot Hslash Hpath.
  destruct (first_piece_is_host host path Hslash Hpath) as [rest Hsplit].
  split.
  - destruct (String.prefix "https://" (host +:+ path)) eqn:Hp; [|done].
    apply prefix_true in Hp as [r Hr]. rewrite Hr in Hsplit.
    change ("https://" +:+ r) with ("https:" +:+ String "/" (String "/" r))
      in Hsplit.
    rewrite Split_append in Hsplit by (intros Hc; absent Hc).
    injection Hsplit as Hhost _. subst host. absent Hdot.
  - destruct (String.prefix "http://" (host +:+ path)) eqn:Hp; [|done].
    apply prefix_true in Hp as [r Hr]. rewrite Hr in Hsplit.
    change ("http://" +:+ r) with ("http:" +:+ String "/" (String "/" r))
      in Hsplit.
    rewrite Split_append in Hsplit by (intros Hc; absent Hc).
    injection Hsplit as Hhost _. subst host. absent Hdot.
Qed.

Lemma contains_Join (labels : list string) (sep c : Ascii.ascii) :
  contains (Join labels (String sep "")) c →
  c = sep ∨ ∃ label, label ∈ labels ∧ contains label c.
Proof.
  induction labels as [|first rest IH].
  - intros Hc. by destruct (contains_empty c).
  - destruct rest as [|second rest].
    + simpl. intros Hc. right. exists first. split; [by left|done].
    + change (Join (first :: second :: rest) (String sep ""))
        with (first +:+ String sep (Join (second :: rest) (String sep ""))).
      rewrite contains_append, contains_String.
      intros [Hc|[->|Hc]]; [right|by left|].
      * exists first. split; [by left|done].
      * destruct (IH Hc) as [->|(label & Hin & Hl)]; [by left|].
        right. exists label. split; [by right|done].
Qed.

Lemma Join_two_contains_sep (first second : string) (rest : list string)
    (sep : Ascii.ascii) :
  contains (Join (first :: second :: rest) (String sep "")) sep.
Proof.
  change (Join (first :: second :: rest) (String sep ""))
    with (first +:+ String sep (Join (second :: rest) (String sep ""))).
  rewrite contains_append, contains_String. right. by left.
Qed.

Section CompanyName.
Variable Title : string → string.

(** Every URL, once a leading https:// and then a leading http:// are
    taken off, is a host, made of one or more labels without dots and
    slashes joined by dots, followed by nothing or by a slash and a
    path; the company name is the title-cased label before the last one
    when the host has two or more labels, and the title-cased host when
    it has one.  The branch that returns the fixed name of an unknown
    company is never taken. *)
Theorem company_name_is_a_host_label (url : string) :
  ∃ labels path label,
    TrimPrefix (TrimPrefix url "https://") "http://"
    = Join labels "." +:+ path
    ∧ (∀ l, l ∈ labels → ¬ contains l "." ∧ ¬ contains l "/")
    ∧ (path = "" ∨ ∃ p, path = String "/" p)
    ∧ labels !! (if bool_decide (1 < length labels)
                 then length labels - 2 else 0)%nat = Some label
    ∧ extractCompanyName Title url = Title label.
Proof.
  unfold extractCompanyName. cbv zeta.
  set (rest := TrimPrefix (TrimPrefix url "https://") "http://").
  pose proof (Split_not_nil rest "/") as Hparts.
  pose proof (Split_pieces rest "/") as Hpieces.
  pose proof (Join_Split rest "/") as Hjoin.
  destruct (Split rest "/") as [|host others]; [done|].
  rewrite bool_decide_eq_true_2 by (simpl; lia).
  change (at_ (host :: others) 0) with host.
  destruct (Hpieces host) as [Hslash _]; [by left|].
  pose proof (Split_not_nil host ".") as Hlabels.
  pose proof (Split_pieces host ".") as Hlabel.
  pose proof (Join_Split host ".") as Hhost.
  assert (∀ l, l ∈ Split host "." →
    ¬ contains l "." ∧ ¬ contains l "/") as Hok.
  { intros l Hin. destruct (Hlabel l Hin) as [Hdot Hsub].
    split; [done|]. intros Hc. by apply Hslash, Hsub. }
  set (path := match others with
               | [] => ""
               | _ => String "/" (Join others "/")
               end).
  assert (rest = host +:+ path) as Hrest.
  { subst path. rewrite <- Hjoin. destruct others as [|o os].
    - simpl. by rewrite append_empty_r.
    - done. }
  assert (path = "" ∨ ∃ p, path = String "/" p) as Hpath.
  { subst path. destruct others; [by left|right; eauto]. }
  destruct (Split host ".") as [|first labels] eqn:Hsplit; [done|].
  exists (first :: labels), path.
  destruct ((first :: labels)
              !! (if bool_decide (1 < length (first :: labels))
                  then length (first :: labels) - 2 else 0)%nat)
    as [label|] eqn:Hlookup.
  - exists label. rewrite Hhost. split; [done|]. split; [done|].
    split; [done|]. split; [done|].
    unfold at_. case_bool_decide; by rewrite Hlookup.
  - apply lookup_ge_None in Hlookup. case_bool_decide; simpl in *; lia.
Qed.

(** For a URL made of an optional http or https scheme, a host of two or
    more labels joined by dots and then nothing or a path, the company
    name is the title-cased label before the last one: the registered
    name for hosts like careers.google.com, and "co" for a host under
    co.uk. *)
Theorem company_name_is_second_to_last_label
    (scheme : string) (labels : list string) (path : string) :
  scheme ∈ ["https://"; "http://"; ""] →
  (2 ≤ length labels)%nat →
  (∀ label, label ∈ labels →
     ¬ contains label "." ∧ ¬ contains label "/") →
  path = "" ∨ (∃ p, path = String "/" p) →
  extractCompanyName Title (scheme +:+ Join labels "." +:+ path)
  = Title (at_ labels (length labels - 2)).
Proof.
  intros Hscheme Hlen Hlabels Hpath.
  set (host := Join labels ".").
  assert (contains host ".") as Hdot.
  { subst host. destruct labels as [|first [|second rest]];
      [simpl in Hlen; lia | simpl in Hlen; lia |].
    apply Join_two_contains_sep. }
  assert (¬ contains host "/") as Hslash.
  { subst host. intros Hc.
    apply contains_Join in Hc as [Heq|(label & Hin & Hc)]; [done|].
    by destruct (Hlabels label Hin) as [_ Hno]. }
  destruct (host_has_no_scheme host path Hdot Hslash Hpath)
    as [Hhttps Hhttp].
  assert (TrimPrefix (TrimPrefix (scheme +:+ host +:+ path) "https://")
            "http://" = host +:+ path) as Htrim.
  { repeat (apply elem_of_cons in Hscheme as [->|Hscheme]).
    - rewrite TrimPrefix_append. by apply TrimPrefix_other.
    - rewrite (TrimPrefix_other ("http://" +:+ host +:+ path) "https://")
        by done.
      apply TrimPrefix_append.
    - rewrite append_empty.
      rewrite (TrimPrefix_other (host +:+ path) "https://" Hhttps).
      by apply TrimPrefix_other.
    - by apply elem_of_nil in Hscheme. }
  unfold extractCompanyName. cbv zeta. rewrite Htrim.
  destruct (first_piece_is_host host path Hslash Hpath) as [rest ->].
  rewrite bool_decide_eq_true_2 by (simpl; lia).
  change (at_ (host :: rest) 0) with host.
  subst host. rewrite Split_Join.
  - by rewrite bool_decide_eq_true_2 by lia.
  - intros ->. simpl in Hlen. lia.
  - intros label Hin. by destruct (Hlabels label Hin).
Qed.

End CompanyName.

(** [company_name_is_second_to_last_label] on a careers page. *)
Lemma company_name_is_second_to_last_label_witness :
  extractCompanyName MoreDoubles.capitalize
    "https://careers.google.com/jobs/results"
  = "Google".
Proof.
  refine (company_name_is_second_to_last_label MoreDoubles.capitalize
            "https://" ["careers"; "google"; "com"] "/jobs/results" _ _ _ _).
  - by left.
  - simpl. lia.
  - intros label Hin.
    repeat (apply elem_of_cons in Hin as [->|Hin]);
      [| | |by apply elem_of_nil in Hin];
      split; intros Hc; absent Hc.
  - right. by exists "jobs/results".
Defined.

(** The value of the URLs setting is cut at every comma and at nothing
    else: an empty value gives no sources; any other value gives one
    entry more than it has commas, none with a comma in it, not trimmed
    and not filtered, so that joining them with commas gives the value
    back. *)
Theorem config_urls_are_the_comma_pieces (urlsStr : string) :
  (urlsStr = "" → configURLs urlsStr = [])
  ∧ (urlsStr ≠ "" →
     Join (configURLs urlsStr) "," = urlsStr
     ∧ length (configURLs urlsStr)
       = Datatypes.S
           (length (filter (fun b => b = ","%char) (bytes urlsStr)))
     ∧ ∀ url, url ∈ configURLs urlsStr → ¬ contains url ",").
Proof.
  unfold configURLs. split.
  - by intros ->.
  - intros Hvalue. rewrite (bool_decide_eq_true_2 _ Hvalue).
    split; [apply Join_Split|]. split; [apply length_Split|].
    intros url Hin. by destruct (Split_pieces urlsStr "," url Hin).
Qed.

(** For two to 127 jobs the message does not spell the number of jobs:
    it begins with the one byte whose code is that number. *)
Theorem job_count_is_one_byte (jobs : list Job) (changeType : string) :
  (2 ≤ length jobs < 128)%nat →
  createJobsMessage jobs changeType
  = String (Ascii.ascii_of_nat (length jobs))
      (" " +:+ changeType +:+ " jobs found.").
Proof.
  intros Hlen. unfold createJobsMessage.
  destruct jobs as [|first [|second rest]]; [simpl in Hlen; lia..|].
  set (n := length (first :: second :: rest)) in *.
  unfold runeString. repeat case_bool_decide; try lia.
  rewrite append_String, append_empty. f_equal.
Qed.

(** [job_count_is_one_byte] on fifty jobs: the byte of code 50 is the
    digit two. *)
Lemma job_count_is_one_byte_witness :
  createJobsMessage (replicate 50 Doubles.engineer) "new"
  = "2 new jobs found.".
Proof.
  refine (job_count_is_one_byte (replicate 50 Doubles.engineer) "new" _).
  simpl. lia.
Defined.

End SourcesTheorems.
